(** * camel/terminator/response_terminator.py

    A shallow embedding of [ResponseWordsTerminator]: the constructor with
    its validation, [is_terminated] and [reset], together with the
    properties of the word-threshold termination predicate.

    Conventions of the embedding.
    - A Python [str] is a [string]; [str.lower] is modelled on ASCII
      letters (bytes outside A-Z are left as they are).
    - A Python [int] is a [Z].
    - A Python [dict] is an association list in insertion order whose
      keys are pairwise distinct; insertion order matters here because
      the termination reason is built by iterating over the counters.
    - The object is a record of its six attributes; a method takes the
      object and returns the object as the call leaves it, together with
      the returned value or the raised exception. *)

From Stdlib Require Import ZArith List String Ascii Bool Lia.
From Stdlib Require Import Permutation DecimalString.
Import ListNotations.

Local Open Scope string_scope.
Local Open Scope Z_scope.

(** ** Python strings *)

Module PyStr.

(** [c.lower()] for a single ASCII character. *)
Definition lower_char (c : ascii) : ascii :=
  let n := nat_of_ascii c in
  if ((65 <=? n)%nat && (n <=? 90)%nat)%bool
  then ascii_of_nat (n + 32)
  else c.

(** [s.lower()] *)
Fixpoint lower (s : string) : string :=
  match s with
  | EmptyString => EmptyString
  | String c rest => String (lower_char c) (lower rest)
  end.

(** [sub in s]: [sub] occurs in [s] as a contiguous substring. *)
Fixpoint contains (sub s : string) : bool :=
  if String.prefix sub s then true
  else match s with
       | EmptyString => false
       | String _ rest => contains sub rest
       end.

(** [str(n)] for an integer, as an f-string renders it. *)
Definition of_int (n : Z) : string :=
  NilZero.string_of_int (Z.to_int n).

(** The one-character string of a line feed. *)
Definition newline : string := String "010"%char EmptyString.

(** [sep.join(parts)] *)
Fixpoint join (sep : string) (parts : list string) : string :=
  match parts with
  | [] => ""
  | [p] => p
  | p :: rest => p ++ sep ++ join sep rest
  end.

End PyStr.

(** ** Python dictionaries with string keys, in insertion order *)

Module PyDict.

Definition dict (V : Type) : Type := list (string * V).

Definition keys {V} (d : dict V) : list string := map fst d.

(** The type invariant of a dictionary: no key occurs twice. *)
Definition is_dict {V} (d : dict V) : Prop := NoDup (keys d).

(** [d[k]] on a plain dict; [None] stands for [KeyError]. *)
Fixpoint get {V} (d : dict V) (k : string) : option V :=
  match d with
  | [] => None
  | (k', v) :: rest => if String.eqb k k' then Some v else get rest k
  end.

(** [d[k] = v]: an existing key keeps its position, a new key goes last. *)
Fixpoint set {V} (d : dict V) (k : string) (v : V) : dict V :=
  match d with
  | [] => [(k, v)]
  | (k', v') :: rest =>
      if String.eqb k k' then (k', v) :: rest
      else (k', v') :: set rest k v
  end.

(** [len(d)] *)
Definition len {V} (d : dict V) : Z := Z.of_nat (List.length d).

(** Reading [d[k]] on a [defaultdict(int)]: a missing key reads as 0. *)
Definition get_default (d : dict Z) (k : string) : Z :=
  match get d k with
  | Some v => v
  | None => 0
  end.

(** [d[k] += 1] on a [defaultdict(int)]. *)
Definition incr (d : dict Z) (k : string) : dict Z :=
  set d k (get_default d k + 1).

(** A decidable form of [is_dict], for concrete dictionaries. *)
Fixpoint distinct (l : list string) : bool :=
  match l with
  | [] => true
  | k :: rest =>
      negb (existsb (String.eqb k) rest) && distinct rest
  end.

End PyDict.

Import PyDict.

(** ** Collaborators of the class *)

(** Modelled from the spec: the aggregation-mode enumeration
    [camel.typing.TerminationMode] is not part of the sources at hand.  It
    has the values ANY and ALL; any further value the caller may pass is
    kept as [OtherMode], carrying the text it formats to. *)
Inductive TerminationMode : Type :=
| ANY
| ALL
| OtherMode (shown : string).

(** How an f-string renders a mode. *)
Definition mode_str (m : TerminationMode) : string :=
  match m with
  | ANY => "TerminationMode.ANY"
  | ALL => "TerminationMode.ALL"
  | OtherMode shown => shown
  end.

(** [camel.messages.BaseMessage]: only [content] is read. *)
Record BaseMessage : Type := { content : string }.

(** The exceptions the class can raise. *)
Inductive exn : Type :=
| ValueError (msg : string)
| KeyError (key : string).

(** ** The object *)

Record ResponseWordsTerminator : Type := {
  words_dict : dict Z;
  case_sensitive : bool;
  mode : TerminationMode;
  _word_count_dict : dict Z;
  _terminated : bool;
  _termination_reason : option string
}.

(** The result of a method call: the object as the call leaves it and
    either the returned value or the exception. *)
Inductive outcome (A : Type) : Type :=
| Return (self : ResponseWordsTerminator) (value : A)
| Raise (self : ResponseWordsTerminator) (e : exn).

Arguments Return {A} self value.
Arguments Raise {A} self e.

Definition state_of {A} (o : outcome A) : ResponseWordsTerminator :=
  match o with
  | Return self _ => self
  | Raise self _ => self
  end.

Definition set_counts (self : ResponseWordsTerminator) (counts : dict Z)
  : ResponseWordsTerminator :=
  {| words_dict := words_dict self;
     case_sensitive := case_sensitive self;
     mode := mode self;
     _word_count_dict := counts;
     _terminated := _terminated self;
     _termination_reason := _termination_reason self |}.

Definition set_latch (self : ResponseWordsTerminator) (t : bool)
  (reason : option string) : ResponseWordsTerminator :=
  {| words_dict := words_dict self;
     case_sensitive := case_sensitive self;
     mode := mode self;
     _word_count_dict := _word_count_dict self;
     _terminated := t;
     _termination_reason := reason |}.

(** ** Construction *)

Definition empty_message : string := "`words_dict` cannot be empty".

Definition threshold_message (word : string) (threshold : Z) : string :=
  "Threshold for word `" ++ word ++ "` should be larger than 0, got `"
  ++ PyStr.of_int threshold ++ "`".

(** The loop of [_validate] over the keys still to be visited. *)
Fixpoint validate_words (d : dict Z) (words : list string) : option exn :=
  match words with
  | [] => None
  | word :: rest =>
      match get d word with
      | None => Some (KeyError word)
      | Some threshold =>
          if threshold <=? 0
          then Some (ValueError (threshold_message word threshold))
          else validate_words d rest
      end
  end.

(** [_validate]: [None] when nothing is raised. *)
Definition _validate (d : dict Z) : option exn :=
  if len d =? 0 then Some (ValueError empty_message)
  else validate_words d (keys d).

(** Modelled from the spec: [ResponseTerminator.__init__] of the base
    class, whose source is not at hand, initialises the latch to
    (false, none).  The constructor then stores its arguments, creates the
    empty counter table and validates. *)
Definition __init__ (words : dict Z) (case_sens : bool)
  (m : TerminationMode) : exn + ResponseWordsTerminator :=
  match _validate words with
  | Some e => inl e
  | None =>
      inr {| words_dict := words;
             case_sensitive := case_sens;
             mode := m;
             _word_count_dict := [];
             _terminated := false;
             _termination_reason := None |}
  end.

(** ** [is_terminated] *)

(** The test of the inner loop: does [message] contain [word]? *)
Definition message_has (case_sens : bool) (word : string)
  (message : BaseMessage) : bool :=
  let special_word := if case_sens then word else PyStr.lower word in
  let text :=
    if case_sens then content message else PyStr.lower (content message) in
  PyStr.contains special_word text.

(** The inner loop, over the messages, for one word. *)
Definition count_word (case_sens : bool) (messages : list BaseMessage)
  (counts : dict Z) (word : string) : dict Z :=
  fold_left
    (fun acc message =>
       if message_has case_sens word message then incr acc word else acc)
    messages counts.

(** The outer loop, over a list of words. *)
Definition count_words (case_sens : bool) (messages : list BaseMessage)
  (words : list string) (counts : dict Z) : dict Z :=
  fold_left (count_word case_sens messages) words counts.

(** The first loop of [is_terminated]: the counter table it leaves. *)
Definition update_counts (self : ResponseWordsTerminator)
  (messages : list BaseMessage) : dict Z :=
  count_words (case_sensitive self) messages
    (keys (words_dict self)) (_word_count_dict self).

Definition reason_line (word : string) (value threshold : Z) : string :=
  "Word `" ++ word ++ "` appears " ++ PyStr.of_int value
  ++ " times in response which has reached termination threshold "
  ++ PyStr.of_int threshold ++ ".".

(** The second loop, over the items of the counter table: it carries
    [num_reached] and [reasons]. *)
Fixpoint collect_reached (d : dict Z) (items : list (string * Z))
  (num_reached : Z) (reasons : list string) : exn + (Z * list string) :=
  match items with
  | [] => inr (num_reached, reasons)
  | (word, value) :: rest =>
      match get d word with
      | None => inl (KeyError word)
      | Some threshold =>
          if value >=? threshold
          then collect_reached d rest (num_reached + 1)
                 (reasons ++ [reason_line word value threshold])%list
          else collect_reached d rest num_reached reasons
      end
  end.

Definition unsupported_message (m : TerminationMode) : string :=
  "Unsupported termination mode `" ++ mode_str m ++ "`".

Definition is_terminated (self : ResponseWordsTerminator)
  (messages : list BaseMessage) : outcome (bool * option string) :=
  if _terminated self then Return self (true, _termination_reason self)
  else
    let self1 := set_counts self (update_counts self messages) in
    match collect_reached (words_dict self1) (_word_count_dict self1) 0 [] with
    | inl e => Raise self1 e
    | inr (num_reached, reasons) =>
        match mode self1 with
        | ANY =>
            let self2 :=
              if num_reached >? 0
              then set_latch self1 true
                     (Some (PyStr.join PyStr.newline reasons))
              else self1 in
            Return self2 (_terminated self2, _termination_reason self2)
        | ALL =>
            let self2 :=
              if num_reached >=? len (words_dict self1)
              then set_latch self1 true
                     (Some (PyStr.join PyStr.newline reasons))
              else self1 in
            Return self2 (_terminated self2, _termination_reason self2)
        | OtherMode _ =>
            Raise self1 (ValueError (unsupported_message (mode self1)))
        end
    end.

(** ** [reset] *)

Definition reset (self : ResponseWordsTerminator) : ResponseWordsTerminator :=
  set_counts (set_latch self false None) [].

(** ** Vocabulary of the properties *)

(** A message of the given content. *)
Definition msg (s : string) : BaseMessage := {| content := s |}.

(** The object a successful construction returns. *)
Definition watch (words : dict Z) (case_sens : bool) (m : TerminationMode)
  : ResponseWordsTerminator :=
  {| words_dict := words;
     case_sensitive := case_sens;
     mode := m;
     _word_count_dict := [];
     _terminated := false;
     _termination_reason := None |}.

(** The running counter of a word: a word never counted reads as 0. *)
Definition counter (self : ResponseWordsTerminator) (word : string) : Z :=
  get_default (_word_count_dict self) word.

(** The number of messages of a batch that contain [word]. *)
Definition hits (case_sens : bool) (word : string)
  (messages : list BaseMessage) : Z :=
  Z.of_nat (List.length (filter (message_has case_sens word) messages)).

(** What the second loop does with one item of the counter table. *)
Definition item_reached (d : dict Z) (item : string * Z) : bool :=
  match get d (fst item) with
  | Some threshold => snd item >=? threshold
  | None => false
  end.

(** The reason line the second loop appends for an item. *)
Definition item_reason (d : dict Z) (item : string * Z) : string :=
  match get d (fst item) with
  | Some threshold => reason_line (fst item) (snd item) threshold
  | None => ""
  end.

(** The configured threshold of a watched word. *)
Definition threshold_of (self : ResponseWordsTerminator) (word : string) : Z :=
  match get (words_dict self) word with
  | Some threshold => threshold
  | None => 0
  end.

(** A watched word is reached when its running counter is greater than or
    equal to its threshold. *)
Definition word_reached (self : ResponseWordsTerminator)
  (entry : string * Z) : bool :=
  snd entry <=? counter self (fst entry).

(** The watched words that are reached, in the order of [words_dict]. *)
Definition reached_words (self : ResponseWordsTerminator) : list string :=
  keys (filter (word_reached self) (words_dict self)).

(** The reached words in the order in which the reason lists them: the
    order in which the words were first counted. *)
Definition reached_in_order (self : ResponseWordsTerminator) : list string :=
  keys (filter (item_reached (words_dict self)) (_word_count_dict self)).

(** The reason string of one reached word. *)
Definition reason_of (self : ResponseWordsTerminator) (word : string)
  : string :=
  reason_line word (counter self word) (threshold_of self word).

(** The joined reason of the object as it stands. *)
Definition joined_reason (self : ResponseWordsTerminator) : string :=
  PyStr.join PyStr.newline (map (reason_of self) (reached_in_order self)).

(** Some watched word has reached its threshold. *)
Definition any_reached (self : ResponseWordsTerminator) : Prop :=
  exists word threshold,
    In (word, threshold) (words_dict self) /\ threshold <= counter self word.

(** Every watched word has reached its threshold. *)
Definition all_reached (self : ResponseWordsTerminator) : Prop :=
  forall word threshold,
    In (word, threshold) (words_dict self) -> threshold <= counter self word.

(** The aggregation condition of the configured mode, on the current
    counters. *)
Definition aggregation_met (self : ResponseWordsTerminator) : bool :=
  match mode self with
  | ANY => Z.of_nat (List.length (reached_words self)) >? 0
  | ALL => Z.of_nat (List.length (reached_words self)) >=? len (words_dict self)
  | OtherMode _ => false
  end.

(** The object after the first loop. *)
Definition counted (self : ResponseWordsTerminator)
  (messages : list BaseMessage) : ResponseWordsTerminator :=
  set_counts self (update_counts self messages).

(** The object once the latch has been set from the current counters. *)
Definition latched (self : ResponseWordsTerminator) : ResponseWordsTerminator :=
  set_latch self true (Some (joined_reason self)).

(** What construction and the methods maintain about the two tables. *)
Record well_formed (self : ResponseWordsTerminator) : Prop := {
  wf_words : is_dict (words_dict self);
  wf_nonempty : words_dict self <> [];
  wf_positive :
    forall word threshold,
      In (word, threshold) (words_dict self) -> 0 < threshold;
  wf_counts : is_dict (_word_count_dict self);
  wf_counted : incl (keys (_word_count_dict self)) (keys (words_dict self))
}.

(** The calls a conversation loop makes on the object. *)
Inductive call : Type :=
| IsTerminated (messages : list BaseMessage)
| Reset.

Definition run_call (self : ResponseWordsTerminator) (c : call)
  : ResponseWordsTerminator :=
  match c with
  | IsTerminated messages => state_of (is_terminated self messages)
  | Reset => reset self
  end.

(** [evolves init self]: [self] is [init] after some sequence of calls. *)
Inductive evolves (init : ResponseWordsTerminator)
  : ResponseWordsTerminator -> Prop :=
| evolves_start : evolves init init
| evolves_call self c : evolves init self -> evolves init (run_call self c).

(** [init] is what the constructor returns on a dictionary. *)
Definition constructed (words : dict Z) (case_sens : bool)
  (m : TerminationMode) (init : ResponseWordsTerminator) : Prop :=
  is_dict words /\ __init__ words case_sens m = inr init.

(** The states of an object that was constructed and then called. *)
Definition reachable (self : ResponseWordsTerminator) : Prop :=
  exists words case_sens m init,
    constructed words case_sens m init /\ evolves init self.

(** What holds in every reachable state. *)
Record invariant (self : ResponseWordsTerminator) : Prop := {
  inv_wf : well_formed self;
  inv_active :
    _terminated self = false ->
    _termination_reason self = None /\ aggregation_met self = false;
  inv_latched :
    _terminated self = true ->
    (exists r, _termination_reason self = Some r /\ r <> "")
    /\ (mode self = ANY \/ mode self = ALL)
}.

(** Every entry of a counter table counts at least one message. *)
Definition counts_positive (d : dict Z) : Prop :=
  forall word value, In (word, value) d -> 1 <= value.

(** [word in keys], as a test. *)
Definition mem (word : string) (l : list string) : bool :=
  existsb (String.eqb word) l.

(** The words of [words] that a batch counts for the first time, in the
    order of [words]: those with a hit that have no entry in [counts]. *)
Definition newly_counted (case_sens : bool) (messages : list BaseMessage)
  (counts : dict Z) (words : list string) : list string :=
  filter
    (fun word =>
       (0 <? hits case_sens word messages) && negb (mem word (keys counts)))
    words.

(** The object after a sequence of calls. *)
Definition run (self : ResponseWordsTerminator) (calls : list call)
  : ResponseWordsTerminator :=
  fold_left run_call calls self.

(** Two objects of the same watch specification, the first in ALL mode
    and the second in ANY mode, that received the same calls. *)
Record paired (a b : ResponseWordsTerminator) : Prop := {
  paired_left : reachable a;
  paired_right : reachable b;
  paired_words : words_dict a = words_dict b;
  paired_case : case_sensitive a = case_sensitive b;
  paired_all : mode a = ALL;
  paired_any : mode b = ANY;
  paired_latch : _terminated a = true -> _terminated b = true;
  paired_counts :
    _terminated b = false -> _word_count_dict a = _word_count_dict b
}.

(** ** Sanity checks on concrete inputs *)

Example of_int_examples :
  PyStr.of_int 0 = "0" /\ PyStr.of_int 12 = "12" /\ PyStr.of_int (-3) = "-3".
Proof. repeat split. Qed.

Example contains_examples :
  PyStr.contains "bye" "good bye bye" = true
  /\ PyStr.contains "" "" = true
  /\ PyStr.contains "stop" "STOP now" = false
  /\ PyStr.contains (PyStr.lower "stop") (PyStr.lower "STOP now") = true.
Proof. repeat split. Qed.

(** ** Facts about dictionaries *)

Section DictFacts.

Context {V : Type}.
Implicit Types (d : dict V) (k : string) (v : V).

Lemma get_None_not_key d k : get d k = None <-> ~ In k (keys d).
Proof.
  induction d as [|[k' v'] d IH]; simpl.
  - tauto.
  - destruct (String.eqb_spec k k') as [->|Hne].
    + split; [discriminate | intros H; exfalso; apply H; now left].
    + rewrite IH. split.
      * intros H [E|E]; [congruence | tauto].
      * intros H E; apply H; now right.
Qed.

Lemma get_Some_In d k v : get d k = Some v -> In (k, v) d.
Proof.
  induction d as [|[k' v'] d IH]; simpl; [discriminate|].
  destruct (String.eqb_spec k k') as [->|Hne].
  - intros [= ->]. now left.
  - intros H. right. auto.
Qed.

Lemma In_keys d k v : In (k, v) d -> In k (keys d).
Proof. intros H. apply (in_map fst) in H. exact H. Qed.

Lemma In_get d k v : is_dict d -> In (k, v) d -> get d k = Some v.
Proof.
  unfold is_dict.
  induction d as [|[k' v'] d IH]; simpl; [tauto|].
  intros Hnd [E|Hin].
  - injection E as -> ->. now rewrite String.eqb_refl.
  - inversion Hnd as [|? ? Hnotin Hnd']; subst.
    destruct (String.eqb_spec k k') as [->|Hne].
    + exfalso. apply Hnotin. eapply In_keys; eauto.
    + auto.
Qed.

Lemma key_get d k : In k (keys d) -> exists v, get d k = Some v.
Proof.
  intros Hin. destruct (get d k) as [v|] eqn:E; [eauto|].
  apply get_None_not_key in E. contradiction.
Qed.

Lemma get_set_same d k v : get (set d k v) k = Some v.
Proof.
  induction d as [|[k' v'] d IH]; simpl.
  - now rewrite String.eqb_refl.
  - destruct (String.eqb k k') eqn:E; simpl; rewrite E; auto.
Qed.

Lemma get_set_other d k k' v : k <> k' -> get (set d k v) k' = get d k'.
Proof.
  intros Hne.
  induction d as [|[k0 v0] d IH]; simpl.
  - destruct (String.eqb_spec k' k); congruence.
  - destruct (String.eqb_spec k k0) as [->|Hk]; simpl.
    + destruct (String.eqb_spec k' k0); congruence.
    + now rewrite IH.
Qed.

Lemma keys_set_old d k v : In k (keys d) -> keys (set d k v) = keys d.
Proof.
  induction d as [|[k' v'] d IH]; simpl; [tauto|].
  intros Hin.
  destruct (String.eqb_spec k k') as [->|Hne]; simpl; [reflexivity|].
  f_equal. apply IH. destruct Hin; congruence.
Qed.

Lemma keys_set_new d k v :
  ~ In k (keys d) -> keys (set d k v) = (keys d ++ [k])%list.
Proof.
  induction d as [|[k' v'] d IH]; simpl; [reflexivity|].
  intros Hnotin.
  destruct (String.eqb_spec k k') as [->|Hne]; simpl.
  - exfalso. apply Hnotin. now left.
  - f_equal. apply IH. tauto.
Qed.

Lemma is_dict_set d k v : is_dict d -> is_dict (set d k v).
Proof.
  unfold is_dict. intros Hnd.
  destruct (in_dec string_dec k (keys d)) as [Hin|Hnotin].
  - now rewrite keys_set_old.
  - rewrite keys_set_new by assumption.
    apply NoDup_app; [assumption | repeat constructor; simpl; tauto |].
    intros x Hx [<-|[]]. contradiction.
Qed.

Lemma keys_set_incl d k v (ws : list string) :
  In k ws -> incl (keys d) ws -> incl (keys (set d k v)) ws.
Proof.
  intros Hk Hincl.
  destruct (in_dec string_dec k (keys d)) as [Hin|Hnotin].
  - now rewrite keys_set_old.
  - rewrite keys_set_new by assumption.
    apply incl_app; [assumption|]. intros x [<-|[]]. assumption.
Qed.

Lemma is_dict_filter d (f : string * V -> bool) :
  is_dict d -> is_dict (filter f d).
Proof.
  unfold is_dict.
  induction d as [|[k v] d IH]; simpl; [auto|].
  intros Hnd. inversion Hnd as [|? ? Hnotin Hnd']; subst.
  destruct (f (k, v)); simpl; [|auto].
  constructor; [|auto].
  intros Hin. apply Hnotin.
  unfold keys in *. rewrite in_map_iff in *.
  destruct Hin as [x [Hx Hf]]. exists x. split; [assumption|].
  apply filter_In in Hf. tauto.
Qed.

End DictFacts.

Lemma distinct_NoDup (l : list string) : distinct l = true -> NoDup l.
Proof.
  induction l as [|k l IH]; simpl; intros H; constructor.
  - apply andb_prop in H as [H _].
    intros Hin. apply negb_true_iff in H.
    assert (existsb (String.eqb k) l = true) as E; [|congruence].
    apply existsb_exists. exists k. split; [assumption | apply String.eqb_refl].
  - apply andb_prop in H as [_ H]. auto.
Qed.

Lemma get_default_incr_same (d : dict Z) (k : string) :
  get_default (incr d k) k = get_default d k + 1.
Proof. unfold incr, get_default at 1. now rewrite get_set_same. Qed.

Lemma get_incr_other (d : dict Z) (k k' : string) :
  k <> k' -> get (incr d k) k' = get d k'.
Proof. intros H. unfold incr. now apply get_set_other. Qed.

(** ** The counter update *)

Section CountFacts.

Variable case_sens : bool.
Variable messages : list BaseMessage.

Lemma count_word_same (counts : dict Z) (word : string) :
  get_default (count_word case_sens messages counts word) word
  = get_default counts word + hits case_sens word messages.
Proof.
  unfold count_word, hits. revert counts.
  induction messages as [|m ms IH]; intros counts; simpl.
  - lia.
  - rewrite IH. destruct (message_has case_sens word m); simpl List.length.
    + rewrite get_default_incr_same. lia.
    + reflexivity.
Qed.

Lemma count_word_other (counts : dict Z) (word other : string) :
  word <> other ->
  get (count_word case_sens messages counts word) other = get counts other.
Proof.
  intros Hne. unfold count_word. revert counts.
  induction messages as [|m ms IH]; intros counts; simpl; [reflexivity|].
  rewrite IH. destruct (message_has case_sens word m); [|reflexivity].
  now apply get_incr_other.
Qed.

Lemma count_word_is_dict (counts : dict Z) (word : string) :
  is_dict counts -> is_dict (count_word case_sens messages counts word).
Proof.
  unfold count_word. revert counts.
  induction messages as [|m ms IH]; intros counts Hd; simpl; [assumption|].
  apply IH. destruct (message_has case_sens word m); [|assumption].
  now apply is_dict_set.
Qed.

Lemma count_word_keys (counts : dict Z) (word : string) (ws : list string) :
  In word ws -> incl (keys counts) ws ->
  incl (keys (count_word case_sens messages counts word)) ws.
Proof.
  intros Hw. unfold count_word. revert counts.
  induction messages as [|m ms IH]; intros counts Hincl; simpl; [assumption|].
  apply IH. destruct (message_has case_sens word m); [|assumption].
  now apply keys_set_incl.
Qed.

Lemma count_word_no_hit (counts : dict Z) (word : string) :
  hits case_sens word messages = 0 ->
  count_word case_sens messages counts word = counts.
Proof.
  unfold count_word, hits. revert counts.
  induction messages as [|m ms IH]; intros counts; simpl; [reflexivity|].
  destruct (message_has case_sens word m); simpl List.length.
  - lia.
  - apply IH.
Qed.

Lemma count_words_unwatched (words : list string) (counts : dict Z)
  (other : string) :
  ~ In other words -> get (count_words case_sens messages words counts) other = get counts other.
Proof.
  unfold count_words. revert counts.
  induction words as [|w ws IH]; intros counts Hnotin; simpl; [reflexivity|].
  rewrite IH by (intros H; apply Hnotin; now right).
  apply count_word_other. intros ->. apply Hnotin. now left.
Qed.

Lemma count_words_watched (words : list string) (counts : dict Z)
  (word : string) :
  NoDup words -> In word words ->
  get_default (count_words case_sens messages words counts) word
  = get_default counts word + hits case_sens word messages.
Proof.
  unfold count_words. revert counts.
  induction words as [|w ws IH]; intros counts Hnd Hin; simpl; [destruct Hin|].
  inversion Hnd as [|? ? Hnotin Hnd']; subst.
  destruct Hin as [->|Hin].
  - unfold get_default at 1.
    fold (count_words case_sens messages ws (count_word case_sens messages counts word)).
    rewrite count_words_unwatched by assumption.
    apply count_word_same.
  - rewrite IH by assumption. unfold get_default.
    rewrite count_word_other; [reflexivity|]. intros ->. contradiction.
Qed.

Lemma count_words_is_dict (words : list string) (counts : dict Z) :
  is_dict counts -> is_dict (count_words case_sens messages words counts).
Proof.
  unfold count_words. revert counts.
  induction words as [|w ws IH]; intros counts Hd; simpl; [assumption|].
  apply IH. now apply count_word_is_dict.
Qed.

Lemma count_words_keys (words all : list string) (counts : dict Z) :
  incl words all -> incl (keys counts) all ->
  incl (keys (count_words case_sens messages words counts)) all.
Proof.
  unfold count_words. revert counts.
  induction words as [|w ws IH]; intros counts Hws Hincl; simpl; [assumption|].
  apply IH.
  - intros x Hx. apply Hws. now right.
  - apply count_word_keys; [|assumption]. apply Hws. now left.
Qed.

End CountFacts.

Lemma update_counts_unfold (self : ResponseWordsTerminator)
  (messages : list BaseMessage) :
  update_counts self messages
  = count_words (case_sensitive self) messages (keys (words_dict self))
      (_word_count_dict self).
Proof. reflexivity. Qed.

Lemma count_words_nil (case_sens : bool) (words : list string)
  (counts : dict Z) :
  count_words case_sens [] words counts = counts.
Proof.
  unfold count_words. revert counts.
  induction words as [|w ws IH]; intros counts; simpl; auto.
Qed.

(** ** The evaluation of the thresholds *)

Lemma collect_reached_spec (d : dict Z) (items : list (string * Z))
  (n : Z) (rs : list string) :
  incl (keys items) (keys d) ->
  collect_reached d items n rs
  = inr (n + Z.of_nat (List.length (filter (item_reached d) items)),
         (rs ++ map (item_reason d) (filter (item_reached d) items))%list).
Proof.
  revert n rs.
  induction items as [|[w v] items IH]; intros n rs Hincl; simpl.
  - now rewrite Z.add_0_r, app_nil_r.
  - assert (In w (keys d)) as Hw by (apply Hincl; now left).
    assert (incl (keys items) (keys d)) as Hrest
      by (intros x Hx; apply Hincl; now right).
    destruct (key_get d w Hw) as [t Ht].
    assert (item_reached d (w, v) = (v >=? t)) as Hr
      by (unfold item_reached; simpl; now rewrite Ht).
    assert (item_reason d (w, v) = reason_line w v t) as Hl
      by (unfold item_reason; simpl; now rewrite Ht).
    rewrite Ht, Hr. destruct (v >=? t); rewrite IH by assumption.
    + simpl. rewrite <- app_assoc, Hl. simpl. do 2 f_equal. lia.
    + reflexivity.
Qed.

Lemma filter_length_le {A} (f : A -> bool) (l : list A) :
  (List.length (filter f l) <= List.length l)%nat.
Proof.
  induction l as [|x l IH]; simpl; [lia|]. destruct (f x); simpl; lia.
Qed.

Lemma filter_length_all {A} (f : A -> bool) (l : list A) :
  List.length (filter f l) = List.length l <-> (forall x, In x l -> f x = true).
Proof.
  induction l as [|x l IH]; simpl.
  - split; [intros _ y [] | reflexivity].
  - pose proof (filter_length_le f l) as Hle.
    destruct (f x) eqn:E; simpl.
    + split.
      * intros H y [<-|Hy]; [assumption|]. apply IH; [lia | assumption].
      * intros H. f_equal. apply IH. auto.
    + split; [lia|]. intros H. rewrite H in E by now left. discriminate.
Qed.

Section Evaluation.

Variable self : ResponseWordsTerminator.
Hypothesis Hwf : well_formed self.

Lemma reached_in_order_iff (word : string) :
  In word (reached_in_order self) <-> In word (reached_words self).
Proof.
  destruct Hwf as [Hwd _ Hpos Hcd Hincl].
  unfold reached_in_order, reached_words, keys.
  rewrite !in_map_iff. split.
  - intros [[w v] [<- Hin]]. apply filter_In in Hin as [Hin Hr].
    unfold item_reached in Hr. simpl in *.
    destruct (get (words_dict self) w) as [t|] eqn:Ht; [|discriminate].
    exists (w, t). split; [reflexivity|]. apply filter_In.
    split; [now apply get_Some_In|].
    unfold word_reached, counter, get_default. simpl.
    rewrite (In_get _ _ _ Hcd Hin). lia.
  - intros [[w t] [<- Hin]]. apply filter_In in Hin as [Hin Hr].
    unfold word_reached, counter, get_default in Hr. simpl in *.
    pose proof (Hpos _ _ Hin) as Ht.
    destruct (get (_word_count_dict self) w) as [v|] eqn:Hv; [|lia].
    exists (w, v). split; [reflexivity|]. apply filter_In.
    split; [now apply get_Some_In|].
    unfold item_reached. simpl. rewrite (In_get _ _ _ Hwd Hin). lia.
Qed.

Lemma reached_in_order_perm :
  Permutation (reached_in_order self) (reached_words self).
Proof.
  apply NoDup_Permutation.
  - apply is_dict_filter, Hwf.
  - apply is_dict_filter, Hwf.
  - apply reached_in_order_iff.
Qed.

Lemma reasons_in_order :
  map (item_reason (words_dict self))
    (filter (item_reached (words_dict self)) (_word_count_dict self))
  = map (reason_of self) (reached_in_order self).
Proof.
  unfold reached_in_order, keys. rewrite map_map.
  apply map_ext_in. intros [w v] Hin.
  apply filter_In in Hin as [Hin _].
  unfold item_reason, reason_of, threshold_of, counter, get_default.
  simpl. rewrite (In_get _ _ _ (wf_counts _ Hwf) Hin).
  destruct (get (words_dict self) w) as [t|] eqn:Ht; [reflexivity|].
  exfalso. apply get_None_not_key in Ht. apply Ht.
  apply (wf_counted _ Hwf). eapply In_keys; eauto.
Qed.

(** The second loop computes the number of reached watched words and
    their reasons. *)
Lemma collect_reached_self :
  collect_reached (words_dict self) (_word_count_dict self) 0 []
  = inr (Z.of_nat (List.length (reached_words self)),
         map (reason_of self) (reached_in_order self)).
Proof.
  rewrite collect_reached_spec by apply Hwf.
  rewrite reasons_in_order. simpl. do 2 f_equal.
  replace (List.length (filter (item_reached (words_dict self))
                          (_word_count_dict self)))
    with (List.length (reached_in_order self))
    by (unfold reached_in_order, keys; apply length_map).
  f_equal. apply Permutation_length, reached_in_order_perm.
Qed.

Lemma any_reached_iff :
  Z.of_nat (List.length (reached_words self)) > 0 <-> any_reached self.
Proof.
  unfold any_reached, reached_words, keys. rewrite length_map. split.
  - destruct (filter (word_reached self) (words_dict self))
      as [|[w t] l] eqn:E; simpl; [lia|].
    intros _. exists w, t.
    assert (In (w, t) (filter (word_reached self) (words_dict self))) as Hin
      by (rewrite E; now left).
    apply filter_In in Hin as [Hin Hr]. split; [assumption|].
    unfold word_reached in Hr. simpl in Hr. lia.
  - intros [w [t [Hin Hle]]].
    assert (In (w, t) (filter (word_reached self) (words_dict self))) as Hf.
    { apply filter_In. split; [assumption|].
      unfold word_reached. simpl. lia. }
    destruct (filter (word_reached self) (words_dict self));
      [destruct Hf | simpl; lia].
Qed.

Lemma all_reached_iff :
  Z.of_nat (List.length (reached_words self)) >= len (words_dict self)
  <-> all_reached self.
Proof.
  unfold all_reached, reached_words, keys, len. rewrite length_map.
  pose proof (filter_length_le (word_reached self) (words_dict self)) as Hle.
  pose proof (filter_length_all (word_reached self) (words_dict self)) as Hall.
  split.
  - intros H w t Hin.
    assert (word_reached self (w, t) = true) as Hr by (apply Hall; [lia|auto]).
    unfold word_reached in Hr. simpl in Hr. lia.
  - intros H.
    assert (List.length (filter (word_reached self) (words_dict self))
            = List.length (words_dict self)) as ->; [|lia].
    apply Hall. intros [w t] Hin. unfold word_reached. simpl.
    apply Z.leb_le. eauto.
Qed.

Lemma all_reached_count :
  all_reached self <->
  List.length (reached_words self) = List.length (words_dict self).
Proof.
  rewrite <- all_reached_iff. unfold len, reached_words, keys.
  rewrite length_map.
  pose proof (filter_length_le (word_reached self) (words_dict self)).
  lia.
Qed.

End Evaluation.

(** ** One call of [is_terminated], step by step *)

Lemma is_terminated_latched (self : ResponseWordsTerminator)
  (messages : list BaseMessage) :
  _terminated self = true ->
  is_terminated self messages = Return self (true, _termination_reason self).
Proof. intros H. unfold is_terminated. now rewrite H. Qed.

(** A call that is not short-circuited, on well-formed tables. *)
Lemma is_terminated_active (self : ResponseWordsTerminator)
  (messages : list BaseMessage) :
  well_formed (counted self messages) ->
  _terminated self = false ->
  is_terminated self messages
  = let self1 := counted self messages in
    match mode self with
    | OtherMode _ => Raise self1 (ValueError (unsupported_message (mode self)))
    | _ =>
        if aggregation_met self1
        then Return (latched self1) (true, Some (joined_reason self1))
        else Return self1 (false, _termination_reason self)
    end.
Proof.
  intros Hwf Hact. unfold is_terminated. rewrite Hact.
  fold (counted self messages). cbv zeta.
  rewrite (collect_reached_self _ Hwf).
  unfold aggregation_met, latched, joined_reason.
  change (mode (counted self messages)) with (mode self).
  destruct (mode self); [| |reflexivity].
  - destruct (_ >? 0); [reflexivity|]. simpl. now rewrite Hact.
  - destruct (_ >=? _); [reflexivity|]. simpl. now rewrite Hact.
Qed.

Lemma counted_well_formed (self : ResponseWordsTerminator)
  (messages : list BaseMessage) :
  well_formed self -> well_formed (counted self messages).
Proof.
  intros [Hwd Hne Hpos Hcd Hincl].
  split; simpl; try assumption.
  - rewrite update_counts_unfold. now apply count_words_is_dict.
  - rewrite update_counts_unfold.
    apply count_words_keys; [apply incl_refl | assumption].
Qed.

Lemma counted_nil (self : ResponseWordsTerminator) : counted self [] = self.
Proof.
  unfold counted. rewrite update_counts_unfold, count_words_nil.
  now destruct self.
Qed.

(** The counters a call leaves behind, whatever its outcome. *)
Lemma is_terminated_counts (self : ResponseWordsTerminator)
  (messages : list BaseMessage) :
  _terminated self = false ->
  _word_count_dict (state_of (is_terminated self messages))
  = update_counts self messages.
Proof.
  intros Hact. unfold is_terminated. rewrite Hact. cbv zeta.
  destruct (collect_reached _ _ 0 []) as [e|[n rs]]; [reflexivity|].
  change (mode (set_counts self (update_counts self messages)))
    with (mode self).
  destruct (mode self); [| |reflexivity].
  - now destruct (n >? 0).
  - now destruct (n >=? _).
Qed.

(** No call changes the configuration. *)
Lemma is_terminated_config (self : ResponseWordsTerminator)
  (messages : list BaseMessage) :
  let self' := state_of (is_terminated self messages) in
  words_dict self' = words_dict self
  /\ case_sensitive self' = case_sensitive self
  /\ mode self' = mode self.
Proof.
  unfold is_terminated. cbv zeta.
  destruct (_terminated self); [simpl; auto|].
  destruct (collect_reached _ _ 0 []) as [e|[n rs]]; [simpl; auto|].
  change (mode (set_counts self (update_counts self messages)))
    with (mode self).
  destruct (mode self) eqn:E; [| |simpl; auto].
  - destruct (n >? 0); simpl; auto.
  - destruct (n >=? _); simpl; auto.
Qed.

(** ** Validation *)

Lemma validate_words_pass (d : dict Z) (words : list string) :
  validate_words d words = None <->
  (forall word, In word words ->
     exists threshold, get d word = Some threshold /\ 0 < threshold).
Proof.
  induction words as [|w ws IH]; simpl.
  - split; [intros _ ? [] | reflexivity].
  - destruct (get d w) as [t|] eqn:Ht.
    + destruct (Z.leb_spec t 0) as [Hle|Hgt].
      * split; [discriminate|]. intros H.
        destruct (H w (or_introl eq_refl)) as [t' [E Hpos]].
        rewrite Ht in E. injection E as <-. lia.
      * rewrite IH. split.
        -- intros H x [<-|Hx]; [eauto | auto].
        -- intros H x Hx. apply H. now right.
    + split; [discriminate|]. intros H.
      destruct (H w (or_introl eq_refl)) as [t' [E _]].
      rewrite Ht in E. discriminate.
Qed.

Lemma validate_words_first (d : dict Z) (before after : list string)
  (word : string) (threshold : Z) :
  (forall w, In w before -> exists t, get d w = Some t /\ 0 < t) ->
  get d word = Some threshold -> threshold <= 0 ->
  validate_words d (before ++ word :: after)
  = Some (ValueError (threshold_message word threshold)).
Proof.
  intros Hbefore Hget Hle.
  induction before as [|w ws IH]; simpl.
  - rewrite Hget. destruct (Z.leb_spec threshold 0); [reflexivity | lia].
  - destruct (Hbefore w (or_introl eq_refl)) as [t [-> Hpos]].
    destruct (Z.leb_spec t 0); [lia|].
    apply IH. intros x Hx. apply Hbefore. now right.
Qed.

Lemma validate_pass (words : dict Z) :
  is_dict words ->
  (_validate words = None <->
   words <> [] /\ (forall w t, In (w, t) words -> 0 < t)).
Proof.
  intros Hd. unfold _validate, len.
  destruct words as [|[w0 t0] rest] eqn:E; [simpl; split; [discriminate|tauto]|].
  rewrite <- E in *.
  assert ((Z.of_nat (List.length words) =? 0) = false) as ->
    by (apply Z.eqb_neq; subst words; simpl List.length; lia).
  rewrite validate_words_pass. split.
  - intros H. split; [subst; discriminate|].
    intros w t Hin.
    destruct (H w (In_keys _ _ _ Hin)) as [t' [Hget Hpos]].
    rewrite (In_get _ _ _ Hd Hin) in Hget. injection Hget as <-. exact Hpos.
  - intros [_ H] w Hw. destruct (key_get _ _ Hw) as [t Ht].
    exists t. split; [assumption|]. eapply H, get_Some_In, Ht.
Qed.

(** ** The invariant holds in every reachable state *)

Lemma filter_nil_all {A} (f : A -> bool) (l : list A) :
  (forall x, In x l -> f x = false) -> filter f l = [].
Proof.
  induction l as [|x l IH]; simpl; intros H; [reflexivity|].
  rewrite (H x) by now left. apply IH. intros y Hy. apply H. now right.
Qed.

Lemma filter_short_exists {A} (f : A -> bool) (l : list A) :
  (List.length (filter f l) < List.length l)%nat ->
  exists x, In x l /\ f x = false.
Proof.
  induction l as [|x l IH]; simpl; [lia|].
  destruct (f x) eqn:E; simpl; intros H.
  - destruct IH as [y [Hy Hf]]; [lia|]. exists y. auto.
  - exists x. auto.
Qed.

Lemma join_nonempty (sep p : string) (rest : list string) :
  p <> "" -> PyStr.join sep (p :: rest) <> "".
Proof.
  intros Hp. destruct rest as [|q rest]; simpl; [assumption|].
  destruct p; [congruence | discriminate].
Qed.

Lemma no_counts_not_met (self : ResponseWordsTerminator) :
  well_formed self -> _word_count_dict self = [] ->
  aggregation_met self = false.
Proof.
  intros Hwf Hempty.
  assert (reached_words self = []) as Hnone.
  { unfold reached_words. rewrite filter_nil_all; [reflexivity|].
    intros [w t] Hin. unfold word_reached, counter. rewrite Hempty. simpl.
    pose proof (wf_positive _ Hwf _ _ Hin). apply Z.leb_gt.
    unfold get_default. simpl. lia. }
  unfold aggregation_met. rewrite Hnone.
  destruct (mode self); [reflexivity| |reflexivity].
  unfold len. destruct (words_dict self) eqn:E.
  - exfalso. now apply (wf_nonempty _ Hwf).
  - rewrite Z.geb_leb. apply Z.leb_gt. simpl List.length. lia.
Qed.

Lemma joined_reason_nonempty (self : ResponseWordsTerminator) :
  well_formed self -> mode self = ANY \/ mode self = ALL ->
  aggregation_met self = true -> joined_reason self <> "".
Proof.
  intros Hwf Hmode Hmet.
  assert (List.length (reached_in_order self) <> 0%nat) as Hlen.
  { rewrite (Permutation_length (reached_in_order_perm _ Hwf)).
    unfold aggregation_met in Hmet.
    assert (len (words_dict self) > 0) as Hpos.
    { unfold len. destruct (words_dict self) eqn:E; [|simpl List.length; lia].
      exfalso. now apply (wf_nonempty _ Hwf). }
    destruct Hmode as [E|E]; rewrite E in Hmet; lia. }
  unfold joined_reason.
  destruct (reached_in_order self) as [|w ws]; [now simpl in Hlen|].
  simpl map. apply join_nonempty. discriminate.
Qed.

Lemma invariant_init (words : dict Z) (case_sens : bool)
  (m : TerminationMode) (init : ResponseWordsTerminator) :
  constructed words case_sens m init -> invariant init.
Proof.
  intros [Hd Hinit]. unfold __init__ in Hinit.
  destruct (_validate words) eqn:Hv; [discriminate|].
  injection Hinit as <-. apply validate_pass in Hv as [Hne Hpos]; [|assumption].
  assert (well_formed
            {| words_dict := words; case_sensitive := case_sens; mode := m;
               _word_count_dict := []; _terminated := false;
               _termination_reason := None |}) as Hwf.
  { split; simpl; try assumption; [constructor | intros x []]. }
  split; [assumption | | discriminate].
  intros _. split; [reflexivity|]. now apply no_counts_not_met.
Qed.

Lemma invariant_reset (self : ResponseWordsTerminator) :
  invariant self -> invariant (reset self).
Proof.
  intros [[Hwd Hne Hpos Hcd Hincl] _ _].
  assert (well_formed (reset self)) as Hwf.
  { split; simpl; try assumption; [constructor | intros x []]. }
  split; [assumption | | discriminate].
  intros _. split; [reflexivity|]. now apply no_counts_not_met.
Qed.

Lemma invariant_is_terminated (self : ResponseWordsTerminator)
  (messages : list BaseMessage) :
  invariant self -> invariant (state_of (is_terminated self messages)).
Proof.
  intros Hinv. destruct (_terminated self) eqn:Hlatch.
  - now rewrite is_terminated_latched.
  - destruct Hinv as [Hwf Hact _].
    destruct (Hact Hlatch) as [Hnone _].
    pose proof (counted_well_formed _ messages Hwf) as Hwf1.
    rewrite (is_terminated_active _ _ Hwf1 Hlatch). cbv zeta.
    assert (invariant (counted self messages) \/
            aggregation_met (counted self messages) = true) as Hcases.
    { destruct (aggregation_met (counted self messages)) eqn:E; [now right|].
      left. split; [assumption | | simpl; congruence].
      intros _. simpl. now split. }
    assert (mode self = ANY \/ mode self = ALL ->
            invariant
              (state_of
                 (if aggregation_met (counted self messages)
                  then Return (latched (counted self messages))
                         (true, Some (joined_reason (counted self messages)))
                  else Return (counted self messages)
                         (false, _termination_reason self)))) as Hmode.
    { intros Hm.
      destruct (aggregation_met (counted self messages)) eqn:E; simpl.
      - split.
        + destruct Hwf1. split; assumption.
        + discriminate.
        + intros _. split; [|exact Hm].
          exists (joined_reason (counted self messages)).
          split; [reflexivity|]. now apply joined_reason_nonempty.
      - destruct Hcases as [H|H]; [exact H | discriminate]. }
    destruct (mode self) eqn:Em; [apply Hmode; auto | apply Hmode; auto |].
    simpl. split; [assumption | | simpl; congruence].
    intros _. simpl. split; [assumption|].
    unfold aggregation_met. simpl. now rewrite Em.
Qed.

Lemma invariant_run_call (self : ResponseWordsTerminator) (c : call) :
  invariant self -> invariant (run_call self c).
Proof.
  destruct c as [messages|]; simpl.
  - apply invariant_is_terminated.
  - apply invariant_reset.
Qed.

Lemma reachable_invariant (self : ResponseWordsTerminator) :
  reachable self -> invariant self.
Proof.
  intros [words [case_sens [m [init [Hinit Hev]]]]].
  induction Hev as [|self c Hev IH].
  - eapply invariant_init; eauto.
  - now apply invariant_run_call.
Qed.

Lemma reachable_run_call (self : ResponseWordsTerminator) (c : call) :
  reachable self -> reachable (run_call self c).
Proof.
  intros [words [case_sens [m [init [Hinit Hev]]]]].
  exists words, case_sens, m, init. split; [assumption|].
  now constructor.
Qed.

(** ** Auxiliary facts for the main results *)

Lemma counted_counter (self : ResponseWordsTerminator)
  (messages : list BaseMessage) (word : string) :
  is_dict (words_dict self) -> In word (keys (words_dict self)) ->
  counter (counted self messages) word
  = counter self word + hits (case_sensitive self) word messages.
Proof.
  intros Hd Hin. unfold counter, counted. simpl.
  rewrite update_counts_unfold. now apply count_words_watched.
Qed.

Lemma counted_counter_unwatched (self : ResponseWordsTerminator)
  (messages : list BaseMessage) (word : string) :
  ~ In word (keys (words_dict self)) ->
  counter (counted self messages) word = counter self word.
Proof.
  intros Hnotin. unfold counter, counted, get_default. simpl.
  rewrite update_counts_unfold. now rewrite count_words_unwatched.
Qed.

Lemma any_reached_met (self : ResponseWordsTerminator) :
  well_formed self -> mode self = ANY ->
  (aggregation_met self = true <-> any_reached self).
Proof.
  intros Hwf Hm. rewrite <- (any_reached_iff self).
  unfold aggregation_met. rewrite Hm. apply Z.gtb_gt.
Qed.

Lemma all_reached_met (self : ResponseWordsTerminator) :
  well_formed self -> mode self = ALL ->
  (aggregation_met self = true <-> all_reached self).
Proof.
  intros Hwf Hm. rewrite <- (all_reached_iff self).
  unfold aggregation_met. rewrite Hm. rewrite Z.geb_leb, Z.leb_le. lia.
Qed.

Lemma below_not_any (self : ResponseWordsTerminator) :
  (forall word threshold,
     In (word, threshold) (words_dict self) -> counter self word < threshold)
  <-> ~ any_reached self.
Proof.
  unfold any_reached. split.
  - intros H [w [t [Hin Hle]]]. specialize (H w t Hin). lia.
  - intros H w t Hin.
    destruct (Z.lt_ge_cases (counter self w) t) as [Hlt|Hge]; [assumption|].
    exfalso. apply H. eauto.
Qed.

Lemma below_not_all (self : ResponseWordsTerminator) :
  (exists word threshold,
     In (word, threshold) (words_dict self) /\ counter self word < threshold)
  <-> ~ all_reached self.
Proof.
  split.
  - intros [w [t [Hin Hlt]]] H. specialize (H w t Hin). lia.
  - intros H.
    pose proof (filter_length_le (word_reached self) (words_dict self)) as Hle.
    destruct (Nat.eq_dec
                (List.length (filter (word_reached self) (words_dict self)))
                (List.length (words_dict self))) as [E|E].
    + exfalso. apply H. intros w t Hin.
      apply (proj1 (filter_length_all _ _)) with (x := (w, t)) in E;
        [|assumption].
      unfold word_reached in E. simpl in E. lia.
    + destruct (filter_short_exists (word_reached self) (words_dict self))
        as [[w t] [Hin Hf]]; [lia|].
      exists w, t. split; [assumption|].
      unfold word_reached in Hf. simpl in Hf. lia.
Qed.

(** What a returned [(true, r)] says about the object left behind. *)
Lemma is_terminated_true (self self' : ResponseWordsTerminator)
  (messages : list BaseMessage) (r : option string) :
  is_terminated self messages = Return self' (true, r) ->
  _terminated self' = true /\ _termination_reason self' = r.
Proof.
  unfold is_terminated.
  destruct (_terminated self) eqn:Hlatch.
  - intros [= <- <-]. auto.
  - cbv zeta.
    destruct (collect_reached _ _ 0 []) as [e|[n rs]]; [discriminate|].
    destruct (mode _); [| |discriminate].
    + destruct (n >? 0); intros H; inversion H; subst; auto.
    + destruct (n >=? _); intros H; inversion H; subst; auto.
Qed.

Lemma first_offending (words : dict Z) :
  (exists w t, In (w, t) words /\ t <= 0) ->
  exists before word threshold after,
    words = (before ++ (word, threshold) :: after)%list
    /\ (forall w t, In (w, t) before -> 0 < t)
    /\ threshold <= 0.
Proof.
  induction words as [|[w0 t0] rest IH]; intros [w [t [Hin Hle]]].
  - destruct Hin.
  - destruct (Z.le_gt_cases t0 0) as [H0|H0].
    + exists [], w0, t0, rest. repeat split; [intros ? ? []|assumption].
    + destruct IH as [before [word [threshold [after [E [Hb Ht]]]]]].
      * destruct Hin as [[= -> ->]|Hin]; [lia | eauto].
      * exists ((w0, t0) :: before), word, threshold, after.
        rewrite E. repeat split; [|assumption].
        intros w' t' [[= <- <-]|Hin']; [lia | eauto].
Qed.

Lemma watch_reachable (words : dict Z) (case_sens : bool)
  (m : TerminationMode) :
  distinct (keys words) = true -> _validate words = None ->
  reachable (watch words case_sens m).
Proof.
  intros Hd Hv. exists words, case_sens, m, (watch words case_sens m).
  split; [|constructor].
  split; [now apply distinct_NoDup|].
  unfold __init__. now rewrite Hv.
Qed.

Lemma init_rejects (words : dict Z) (case_sens : bool) (m : TerminationMode) :
  is_dict words ->
  forall before word threshold after,
    words = (before ++ (word, threshold) :: after)%list ->
    (forall w t, In (w, t) before -> 0 < t) ->
    threshold <= 0 ->
    __init__ words case_sens m
    = inl (ValueError (threshold_message word threshold)).
Proof.
  intros Hd before word threshold after E Hbefore Hle.
  assert (forall w t, In (w, t) words -> get words w = Some t) as Hget
    by (intros w t; now apply In_get).
  unfold __init__, _validate, len.
  assert ((Z.of_nat (List.length words) =? 0) = false) as ->.
  { apply Z.eqb_neq. rewrite E, length_app. simpl List.length. lia. }
  assert (keys words = (keys before ++ word :: keys after)%list) as ->
    by (rewrite E; unfold keys; now rewrite map_app).
  rewrite (validate_words_first words (keys before) (keys after)
             word threshold); [reflexivity | | | assumption].
  - intros w Hw. unfold keys in Hw. apply in_map_iff in Hw.
    destruct Hw as [[w' t] [<- Hin]]. exists t. simpl. split; [|eauto].
    apply Hget. rewrite E. apply in_or_app. now left.
  - apply Hget. rewrite E. apply in_or_app. right. now left.
Qed.

Lemma init_accepts (words : dict Z) (case_sens : bool) (m : TerminationMode) :
  is_dict words -> words <> [] ->
  (forall w t, In (w, t) words -> 0 < t) ->
  __init__ words case_sens m = inr (watch words case_sens m).
Proof.
  intros Hd Hne Hpos. unfold __init__.
  now rewrite (proj2 (validate_pass words Hd) (conj Hne Hpos)).
Qed.

(** ** [reset] and the configuration *)

Lemma evolves_config (init self : ResponseWordsTerminator) :
  evolves init self ->
  words_dict self = words_dict init
  /\ case_sensitive self = case_sensitive init
  /\ mode self = mode init.
Proof.
  induction 1 as [|self c Hev (Hw & Hc & Hm)]; [auto|].
  destruct c as [messages|]; simpl.
  - destruct (is_terminated_config self messages) as (Ew & Ec & Em).
    rewrite Ew, Ec, Em. auto.
  - auto.
Qed.

Lemma init_shape (words : dict Z) (case_sens : bool) (m : TerminationMode)
  (init : ResponseWordsTerminator) :
  __init__ words case_sens m = inr init -> init = watch words case_sens m.
Proof.
  unfold __init__. destruct (_validate words); [discriminate|].
  now intros [= <-].
Qed.

(** * The properties of the terminator *)

(** C1. In ANY mode, a call of [is_terminated] that the latch does not
    short-circuit first updates the counters of the watched words for the
    input messages ([counted]).  If then at least one watched word has a
    running counter greater than or equal to its threshold, the call sets
    the latch, with the reason being the reason lines (word, observed
    count, threshold) of the reached watched words joined by newlines, and
    returns (true, that reason); the words of the reason are exactly the
    reached watched words, in the order they were first counted.  If no
    watched word has reached its threshold, the call returns
    (false, none) and the latch stays unset. *)
Theorem any_mode_decision (self : ResponseWordsTerminator)
  (messages : list BaseMessage) :
  reachable self -> mode self = ANY -> _terminated self = false ->
  let self1 := counted self messages in
  (forall word, In word (keys (words_dict self)) ->
     counter self1 word
     = counter self word + hits (case_sensitive self) word messages)
  /\ Permutation (reached_in_order self1) (reached_words self1)
  /\ (any_reached self1 ->
      is_terminated self messages
      = Return (set_latch self1 true (Some (joined_reason self1)))
          (true, Some (joined_reason self1)))
  /\ ((forall word threshold,
         In (word, threshold) (words_dict self) ->
         counter self1 word < threshold) ->
      is_terminated self messages = Return self1 (false, None)
      /\ _terminated self1 = false
      /\ _termination_reason self1 = None).
Proof.
  intros Hreach Hmode Hact self1.
  destruct (reachable_invariant _ Hreach) as [Hwf Hinv _].
  destruct (Hinv Hact) as [Hnone _].
  assert (well_formed self1) as Hwf1 by now apply counted_well_formed.
  pose proof (is_terminated_active _ _ Hwf1 Hact) as Hcall.
  rewrite Hmode in Hcall. cbv zeta in Hcall. fold self1 in Hcall.
  split; [|split; [|split]].
  - intros word Hin. apply counted_counter; [apply Hwf | assumption].
  - now apply reached_in_order_perm.
  - intros Hany. apply (any_reached_met _ Hwf1 Hmode) in Hany.
    now rewrite Hcall, Hany.
  - intros Hbelow. apply (below_not_any self1) in Hbelow.
    destruct (aggregation_met self1) eqn:E.
    + exfalso. apply Hbelow. now apply (any_reached_met _ Hwf1 Hmode).
    + rewrite Hcall, Hnone. repeat split; assumption.
Qed.

Lemma any_mode_decision_witness :
  is_terminated (state_of (is_terminated (watch [("bye", 2)] false ANY)
                             [msg "bye"]))
    [msg "Goodbye, bye"]
  = Return
      {| words_dict := [("bye", 2)];
         case_sensitive := false;
         mode := ANY;
         _word_count_dict := [("bye", 2)];
         _terminated := true;
         _termination_reason :=
           Some ("Word `bye` appears 2 times in response which has "
                 ++ "reached termination threshold 2.") |}
      (true,
       Some ("Word `bye` appears 2 times in response which has "
             ++ "reached termination threshold 2.")).
Proof.
  destruct (any_mode_decision
              (state_of (is_terminated (watch [("bye", 2)] false ANY)
                           [msg "bye"]))
              [msg "Goodbye, bye"]) as (_ & _ & Hlatch & _).
  - apply (reachable_run_call _ (IsTerminated [msg "bye"])).
    apply watch_reachable; reflexivity.
  - reflexivity.
  - reflexivity.
  - rewrite Hlatch; [reflexivity|].
    exists "bye", 2. split; [now left | vm_compute; discriminate].
Defined.

(** C2. In ALL mode, a call of [is_terminated] that the latch does not
    short-circuit sets the latch (with the newline-joined reasons of the
    reached words) exactly when, after the counter update, the number of
    watched words whose counter has reached its threshold equals the
    number of watched words; as long as one watched word is below its
    threshold, the call returns (false, none) and the latch stays
    unset. *)
Theorem all_mode_decision (self : ResponseWordsTerminator)
  (messages : list BaseMessage) :
  reachable self -> mode self = ALL -> _terminated self = false ->
  let self1 := counted self messages in
  Permutation (reached_in_order self1) (reached_words self1)
  /\ (List.length (reached_words self1) = List.length (words_dict self) ->
      is_terminated self messages
      = Return (set_latch self1 true (Some (joined_reason self1)))
          (true, Some (joined_reason self1)))
  /\ ((exists word threshold,
         In (word, threshold) (words_dict self)
         /\ counter self1 word < threshold) ->
      is_terminated self messages = Return self1 (false, None)
      /\ _terminated self1 = false
      /\ _termination_reason self1 = None)
  /\ (_terminated (state_of (is_terminated self messages)) = true <->
      List.length (reached_words self1) = List.length (words_dict self)).
Proof.
  intros Hreach Hmode Hact self1.
  destruct (reachable_invariant _ Hreach) as [Hwf Hinv _].
  destruct (Hinv Hact) as [Hnone _].
  assert (well_formed self1) as Hwf1 by now apply counted_well_formed.
  pose proof (is_terminated_active _ _ Hwf1 Hact) as Hcall.
  rewrite Hmode in Hcall. cbv zeta in Hcall. fold self1 in Hcall.
  pose proof (all_reached_met _ Hwf1 Hmode) as Hmet.
  pose proof (all_reached_count self1) as Hcount.
  change (words_dict self1) with (words_dict self) in Hcount.
  split; [|split; [|split]].
  - now apply reached_in_order_perm.
  - intros Hall. apply Hcount, Hmet in Hall. now rewrite Hcall, Hall.
  - intros Hbelow. apply (below_not_all self1) in Hbelow.
    destruct (aggregation_met self1) eqn:E.
    + exfalso. apply Hbelow. now apply Hmet.
    + rewrite Hcall, Hnone. repeat split; assumption.
  - rewrite Hcall, <- Hcount, <- Hmet.
    destruct (aggregation_met self1); simpl; [tauto|].
    rewrite Hact. split; discriminate.
Qed.

Lemma all_mode_decision_witness :
  is_terminated (watch [("bye", 1); ("stop", 1)] false ALL) [msg "bye"]
  = Return
      {| words_dict := [("bye", 1); ("stop", 1)];
         case_sensitive := false;
         mode := ALL;
         _word_count_dict := [("bye", 1)];
         _terminated := false;
         _termination_reason := None |}
      (false, None).
Proof.
  destruct (all_mode_decision
              (watch [("bye", 1); ("stop", 1)] false ALL)
              [msg "bye"]) as (_ & _ & Hbelow & _).
  - apply watch_reachable; reflexivity.
  - reflexivity.
  - reflexivity.
  - destruct Hbelow as [Hcall _]; [|rewrite Hcall; reflexivity].
    exists "stop", 1. split; [right; now left | vm_compute; reflexivity].
Defined.

(** C3. In a call of [is_terminated] that the latch does not
    short-circuit, the running counter of every watched word grows by the
    number of input messages whose (case-normalised) content contains the
    (case-normalised) word: one per such message, however often the word
    occurs in it, and nothing for a message that does not contain it.
    The counter of any other word is untouched.  Counters accumulate over
    successive calls, and a word never counted reads as 0. *)
Theorem counter_update (self : ResponseWordsTerminator)
  (messages : list BaseMessage) (word : string) :
  is_dict (words_dict self) -> _terminated self = false ->
  let self' := state_of (is_terminated self messages) in
  (In word (keys (words_dict self)) ->
   counter self' word
   = counter self word + hits (case_sensitive self) word messages)
  /\ (~ In word (keys (words_dict self)) ->
      counter self' word = counter self word)
  /\ hits (case_sensitive self) word [] = 0
  /\ (forall message rest,
        hits (case_sensitive self) word (message :: rest)
        = (if message_has (case_sensitive self) word message then 1 else 0)
          + hits (case_sensitive self) word rest)
  /\ (forall more,
        In word (keys (words_dict self)) -> _terminated self' = false ->
        counter (state_of (is_terminated self' more)) word
        = counter self word
          + hits (case_sensitive self) word messages
          + hits (case_sensitive self) word more)
  /\ (_word_count_dict self = [] -> counter self word = 0).
Proof.
  intros Hd Hact self'.
  assert (forall s ms, _terminated s = false ->
            counter (state_of (is_terminated s ms)) word
            = counter (counted s ms) word) as Hstate.
  { intros s ms Hs. unfold counter. now rewrite is_terminated_counts. }
  destruct (is_terminated_config self messages) as (Hwords & Hcase & _).
  fold self' in Hwords, Hcase.
  repeat split.
  - intros Hin. unfold self'. rewrite Hstate by assumption.
    now apply counted_counter.
  - intros Hnotin. unfold self'. rewrite Hstate by assumption.
    now apply counted_counter_unwatched.
  - intros message rest. unfold hits. simpl.
    destruct (message_has (case_sensitive self) word message);
      simpl List.length; lia.
  - intros more Hin Hact'. rewrite Hstate by assumption.
    rewrite counted_counter by (rewrite Hwords; assumption).
    rewrite Hcase. f_equal. unfold self'. rewrite Hstate by assumption.
    now apply counted_counter.
  - intros Hempty. unfold counter. now rewrite Hempty.
Qed.

Lemma counter_update_witness :
  counter (state_of (is_terminated (watch [("bye", 5)] false ANY)
                       [msg "bye bye"; msg "hello"; msg "Bye!"]))
    "bye"
  = 2.
Proof.
  destruct (counter_update (watch [("bye", 5)] false ANY)
              [msg "bye bye"; msg "hello"; msg "Bye!"] "bye")
    as (Hwatched & _).
  - apply distinct_NoDup. reflexivity.
  - reflexivity.
  - rewrite Hwatched; [reflexivity | now left].
Defined.

(** C4. Once [is_terminated] has returned (true, r), the latch is set
    with reason r, and whatever further calls of [is_terminated] follow,
    with any batches of messages, the empty one included, each returns
    exactly (true, r) and leaves the whole object, counters and latch,
    as it was.  Only [reset] leaves the terminated state. *)
Theorem latch_idempotent (self self' : ResponseWordsTerminator)
  (messages : list BaseMessage) (r : option string) :
  is_terminated self messages = Return self' (true, r) ->
  _terminated self' = true
  /\ _termination_reason self' = r
  /\ forall (later : list (list BaseMessage)) (next : list BaseMessage),
       fold_left (fun s batch => state_of (is_terminated s batch)) later self'
       = self'
       /\ is_terminated self' next = Return self' (true, r).
Proof.
  intros Hcall. apply is_terminated_true in Hcall as [Hlatch Hreason].
  assert (forall next, is_terminated self' next = Return self' (true, r))
    as Hnext.
  { intros next. rewrite is_terminated_latched by assumption.
    now rewrite Hreason. }
  repeat split; try assumption; [|apply Hnext].
  induction later as [|batch later IH]; simpl; [reflexivity|].
  now rewrite Hnext.
Qed.

Lemma latch_idempotent_witness :
  is_terminated (state_of (is_terminated (watch [("bye", 1)] false ANY)
                             [msg "bye"]))
    [msg "bye"; msg "bye again"]
  = Return (state_of (is_terminated (watch [("bye", 1)] false ANY)
                        [msg "bye"]))
      (true,
       Some ("Word `bye` appears 1 times in response which has "
             ++ "reached termination threshold 1.")).
Proof.
  destruct (latch_idempotent (watch [("bye", 1)] false ANY)
              (state_of (is_terminated (watch [("bye", 1)] false ANY)
                           [msg "bye"]))
              [msg "bye"]
              (Some ("Word `bye` appears 1 times in response which has "
                     ++ "reached termination threshold 1.")))
    as (_ & _ & Hlater).
  - reflexivity.
  - exact (proj2 (Hlater [] [msg "bye"; msg "bye again"])).
Defined.

(** C5. Construction fails at once with a configuration error
    ([ValueError]) when the watch specification is empty, and when some
    threshold is less than or equal to zero; the message then names the
    first offending word and its threshold.  On a non-empty specification
    whose thresholds are all positive, construction succeeds, whatever the
    mode, with empty counters and the latch unset. *)
Theorem construction_validation (words : dict Z) (case_sens : bool)
  (m : TerminationMode) :
  is_dict words ->
  (words = [] -> __init__ words case_sens m = inl (ValueError empty_message))
  /\ (forall before word threshold after,
        words = (before ++ (word, threshold) :: after)%list ->
        (forall w t, In (w, t) before -> 0 < t) ->
        threshold <= 0 ->
        __init__ words case_sens m
        = inl (ValueError (threshold_message word threshold)))
  /\ ((exists w t, In (w, t) words /\ t <= 0) ->
      exists word threshold,
        In (word, threshold) words /\ threshold <= 0
        /\ __init__ words case_sens m
           = inl (ValueError (threshold_message word threshold)))
  /\ (words <> [] -> (forall w t, In (w, t) words -> 0 < t) ->
      __init__ words case_sens m = inr (watch words case_sens m)).
Proof.
  intros Hd. split; [|split; [|split]].
  - intros ->. reflexivity.
  - intros before word threshold after. now apply init_rejects.
  - intros Hbad.
    destruct (first_offending words Hbad)
      as [before [word [threshold [after [E [Hbefore Hle]]]]]].
    exists word, threshold. split; [|split; [assumption|]].
    + rewrite E. apply in_or_app. right. now left.
    + now apply (init_rejects words case_sens m Hd before word threshold after).
  - now apply init_accepts.
Qed.

Lemma construction_validation_witness :
  __init__ [("bye", 2); ("stop", 0); ("end", -1)] false ALL
  = inl (ValueError
           "Threshold for word `stop` should be larger than 0, got `0`").
Proof.
  destruct (construction_validation
              [("bye", 2); ("stop", 0); ("end", -1)] false ALL)
    as (_ & Hfirst & _).
  - apply distinct_NoDup. reflexivity.
  - rewrite (Hfirst [("bye", 2)] "stop" 0 [("end", -1)]).
    + reflexivity.
    + reflexivity.
    + intros w t [[= <- <-]|[]]. lia.
    + lia.
Defined.

(** C6. With an aggregation mode other than ANY and ALL, construction
    raises nothing for the mode, the latch is never set, and every call
    of [is_terminated] raises the configuration error ([ValueError]) for
    the unsupported mode; the object the failed call leaves behind has its
    counters updated for the input messages all the same, and its latch
    still unset. *)
Theorem unsupported_mode (self : ResponseWordsTerminator)
  (messages : list BaseMessage) (shown : string) :
  reachable self -> mode self = OtherMode shown ->
  let self1 := counted self messages in
  _terminated self = false
  /\ is_terminated self messages
     = Raise self1
         (ValueError ("Unsupported termination mode `" ++ shown ++ "`"))
  /\ (forall word, In word (keys (words_dict self)) ->
        counter self1 word
        = counter self word + hits (case_sensitive self) word messages)
  /\ _terminated self1 = false
  /\ _termination_reason self1 = None
  /\ (forall words case_sens,
        is_dict words -> words <> [] ->
        (forall w t, In (w, t) words -> 0 < t) ->
        __init__ words case_sens (OtherMode shown)
        = inr (watch words case_sens (OtherMode shown))).
Proof.
  intros Hreach Hmode self1.
  destruct (reachable_invariant _ Hreach) as [Hwf Hinv Hlatched].
  assert (_terminated self = false) as Hact.
  { destruct (_terminated self); [|reflexivity].
    destruct (Hlatched eq_refl) as [_ [E|E]]; congruence. }
  destruct (Hinv Hact) as [Hnone _].
  assert (well_formed self1) as Hwf1 by now apply counted_well_formed.
  split; [assumption|]. split; [|split; [|split; [|split]]].
  - rewrite (is_terminated_active _ _ Hwf1 Hact), Hmode. reflexivity.
  - intros word Hin. apply counted_counter; [apply Hwf | assumption].
  - exact Hact.
  - exact Hnone.
  - intros words case_sens Hd Hne Hpos.
    now apply init_accepts.
Qed.

Lemma unsupported_mode_witness :
  is_terminated (watch [("stop", 1)] false (OtherMode "round_robin"))
    [msg "STOP now"]
  = Raise
      {| words_dict := [("stop", 1)];
         case_sensitive := false;
         mode := OtherMode "round_robin";
         _word_count_dict := [("stop", 1)];
         _terminated := false;
         _termination_reason := None |}
      (ValueError "Unsupported termination mode `round_robin`").
Proof.
  destruct (unsupported_mode
              (watch [("stop", 1)] false (OtherMode "round_robin"))
              [msg "STOP now"] "round_robin") as (_ & Hraise & _).
  - apply watch_reachable; reflexivity.
  - reflexivity.
  - rewrite Hraise. reflexivity.
Defined.

(** C7. When [case_sensitive] is false, the watched word and the content
    of each message are both lower-cased before the substring test, so
    the word "stop" matches the content "STOP now" and is counted; when
    [case_sensitive] is true, neither is lower-cased and "stop" does not
    match "STOP now". *)
Theorem case_sensitivity :
  (forall word message,
     message_has false word message
     = PyStr.contains (PyStr.lower word) (PyStr.lower (content message)))
  /\ (forall word message,
        message_has true word message
        = PyStr.contains word (content message))
  /\ PyStr.lower "STOP now" = "stop now"
  /\ message_has false "stop" (msg "STOP now") = true
  /\ message_has true "stop" (msg "STOP now") = false
  /\ is_terminated (watch [("stop", 1)] false ANY) [msg "STOP now"]
     = Return
         {| words_dict := [("stop", 1)];
            case_sensitive := false;
            mode := ANY;
            _word_count_dict := [("stop", 1)];
            _terminated := true;
            _termination_reason :=
              Some ("Word `stop` appears 1 times in response which has "
                    ++ "reached termination threshold 1.") |}
         (true,
          Some ("Word `stop` appears 1 times in response which has "
                ++ "reached termination threshold 1."))
  /\ is_terminated (watch [("stop", 1)] true ANY) [msg "STOP now"]
     = Return (watch [("stop", 1)] true ANY) (false, None).
Proof.
  split; [reflexivity|]. split; [reflexivity|].
  repeat split.
Qed.

(** C8. [reset] sets the latch to (false, none) and empties the counter
    table, so that every counter reads 0; it changes nothing else and
    can be called in any state.  On a freshly constructed object it is a
    no-op, and after any history of calls, termination included, it
    gives back the freshly constructed object of the same configuration,
    which therefore behaves exactly like a new one. *)
Theorem reset_restores (words : dict Z) (case_sens : bool)
  (m : TerminationMode) (init self : ResponseWordsTerminator) :
  __init__ words case_sens m = inr init -> evolves init self ->
  reset init = init
  /\ reset self = init
  /\ (forall messages,
        is_terminated (reset self) messages = is_terminated init messages)
  /\ (forall any : ResponseWordsTerminator,
        _terminated (reset any) = false
        /\ _termination_reason (reset any) = None
        /\ _word_count_dict (reset any) = []
        /\ (forall word, counter (reset any) word = 0)
        /\ words_dict (reset any) = words_dict any
        /\ case_sensitive (reset any) = case_sensitive any
        /\ mode (reset any) = mode any).
Proof.
  intros Hinit Hev. apply init_shape in Hinit. subst init.
  assert (reset self = watch words case_sens m) as Hreset.
  { destruct (evolves_config _ _ Hev) as (Hw & Hc & Hm). simpl in Hw, Hc, Hm.
    unfold reset, set_counts, set_latch, watch. simpl.
    now rewrite Hw, Hc, Hm. }
  split; [reflexivity|]. split; [assumption|].
  split; [intros messages; now rewrite Hreset|].
  intros any. repeat split.
Qed.

Lemma reset_restores_witness :
  reset (state_of (is_terminated (watch [("bye", 1)] false ANY) [msg "bye"]))
  = watch [("bye", 1)] false ANY.
Proof.
  destruct (reset_restores [("bye", 1)] false ANY
              (watch [("bye", 1)] false ANY)
              (state_of (is_terminated (watch [("bye", 1)] false ANY)
                           [msg "bye"])))
    as (_ & Hreset & _).
  - reflexivity.
  - apply (evolves_call _ _ (IsTerminated [msg "bye"])). constructor.
  - exact Hreset.
Defined.

(** C9. In every reachable state of a terminator whose mode is ANY or
    ALL, [is_terminated] on the empty sequence of messages is a pure
    pass-through: it raises nothing, leaves the object (counters and
    latch) exactly as it was, and returns the current (terminated,
    reason) pair. *)
Theorem empty_batch_passthrough (self : ResponseWordsTerminator) :
  reachable self -> mode self = ANY \/ mode self = ALL ->
  is_terminated self []
  = Return self (_terminated self, _termination_reason self).
Proof.
  intros Hreach Hmode.
  destruct (reachable_invariant _ Hreach) as [Hwf Hinv _].
  destruct (_terminated self) eqn:Hlatch.
  - now apply is_terminated_latched.
  - destruct (Hinv eq_refl) as [Hnone Hnot].
    rewrite is_terminated_active;
      [|apply counted_well_formed; assumption | assumption].
    cbv zeta. rewrite counted_nil, Hnot, Hnone.
    destruct Hmode as [-> | ->]; reflexivity.
Qed.

Lemma empty_batch_passthrough_witness :
  is_terminated (state_of (is_terminated (watch [("bye", 2)] true ALL)
                             [msg "bye"]))
    []
  = Return (state_of (is_terminated (watch [("bye", 2)] true ALL)
                        [msg "bye"]))
      (false, None).
Proof.
  apply (empty_batch_passthrough
           (state_of (is_terminated (watch [("bye", 2)] true ALL)
                        [msg "bye"]))).
  - apply (reachable_run_call _ (IsTerminated [msg "bye"])).
    apply watch_reachable; reflexivity.
  - right. reflexivity.
Defined.

(** C10. Invariant of the reachable states, that is, of the object after
    construction and after any sequence of [is_terminated] and [reset]
    calls.  While the latch is unset the aggregation condition is false
    for the current counters: under ANY no watched word's counter has
    reached its threshold, under ALL at least one watched word's counter
    is below its threshold.  While the latch is set the stored reason is
    a non-empty string (and the mode is ANY or ALL). *)
Theorem latch_invariant (self : ResponseWordsTerminator) :
  reachable self ->
  (mode self = ANY -> _terminated self = false ->
   forall word threshold,
     In (word, threshold) (words_dict self) -> counter self word < threshold)
  /\ (mode self = ALL -> _terminated self = false ->
      exists word threshold,
        In (word, threshold) (words_dict self)
        /\ counter self word < threshold)
  /\ (_terminated self = true ->
      (mode self = ANY \/ mode self = ALL)
      /\ exists r, _termination_reason self = Some r /\ r <> "")
  /\ (forall c, reachable (run_call self c)).
Proof.
  intros Hreach.
  destruct (reachable_invariant _ Hreach) as [Hwf Hinv Hlatched].
  split; [|split; [|split]].
  - intros Hmode Hact. destruct (Hinv Hact) as [_ Hnot].
    apply below_not_any. intros Hany.
    apply (any_reached_met _ Hwf Hmode) in Hany. congruence.
  - intros Hmode Hact. destruct (Hinv Hact) as [_ Hnot].
    apply below_not_all. intros Hall.
    apply (all_reached_met _ Hwf Hmode) in Hall. congruence.
  - intros Hlatch. destruct (Hlatched Hlatch) as [Hr Hm]. auto.
  - intros c. now apply reachable_run_call.
Qed.

Lemma latch_invariant_witness :
  exists r,
    _termination_reason
      (state_of (is_terminated (watch [("bye", 1); ("stop", 1)] false ANY)
                   [msg "please stop"]))
    = Some r
    /\ r <> "".
Proof.
  destruct (latch_invariant
              (state_of
                 (is_terminated (watch [("bye", 1); ("stop", 1)] false ANY)
                    [msg "please stop"]))) as (_ & _ & Hlatched & _).
  - apply (reachable_run_call _ (IsTerminated [msg "please stop"])).
    apply watch_reachable; reflexivity.
  - destruct Hlatched as [_ Hreason]; [reflexivity | exact Hreason].
Defined.

(** * Further properties of the terminator *)

(** ** A batch acts through its numbers of hits *)

Lemma count_word_iter (case_sens : bool) (messages : list BaseMessage)
  (counts : dict Z) (word : string) :
  count_word case_sens messages counts word
  = Nat.iter (List.length (filter (message_has case_sens word) messages))
      (fun d => incr d word) counts.
Proof.
  unfold count_word. revert counts.
  induction messages as [|m ms IH]; intros counts; simpl; [reflexivity|].
  rewrite IH. destruct (message_has case_sens word m); [|reflexivity].
  simpl List.length. now rewrite Nat.iter_succ_r.
Qed.

Lemma count_word_same_hits (case_sens : bool) (ms ms' : list BaseMessage)
  (counts : dict Z) (word : string) :
  hits case_sens word ms = hits case_sens word ms' ->
  count_word case_sens ms counts word = count_word case_sens ms' counts word.
Proof.
  unfold hits. intros H. apply Nat2Z.inj in H.
  now rewrite !count_word_iter, H.
Qed.

Lemma count_words_same_hits (case_sens : bool) (ms ms' : list BaseMessage)
  (words : list string) (counts : dict Z) :
  (forall word, In word words ->
     hits case_sens word ms = hits case_sens word ms') ->
  count_words case_sens ms words counts
  = count_words case_sens ms' words counts.
Proof.
  unfold count_words. revert counts.
  induction words as [|w ws IH]; intros counts H; simpl; [reflexivity|].
  rewrite (count_word_same_hits case_sens ms ms') by (apply H; now left).
  apply IH. intros word Hin. apply H. now right.
Qed.

Lemma is_terminated_by_counts (self : ResponseWordsTerminator)
  (ms ms' : list BaseMessage) :
  update_counts self ms = update_counts self ms' ->
  is_terminated self ms = is_terminated self ms'.
Proof. intros H. unfold is_terminated. now rewrite H. Qed.

Lemma is_terminated_same_hits (self : ResponseWordsTerminator)
  (ms ms' : list BaseMessage) :
  (forall word, In word (keys (words_dict self)) ->
     hits (case_sensitive self) word ms = hits (case_sensitive self) word ms') ->
  is_terminated self ms = is_terminated self ms'.
Proof.
  intros H. apply is_terminated_by_counts.
  rewrite !update_counts_unfold. now apply count_words_same_hits.
Qed.

Lemma hits_permutation (case_sens : bool) (word : string)
  (ms ms' : list BaseMessage) :
  Permutation ms ms' -> hits case_sens word ms = hits case_sens word ms'.
Proof.
  unfold hits. intros H. f_equal.
  induction H as [|m l l' H IH|m m' l|l l' l'' H1 IH1 H2 IH2]; simpl.
  - reflexivity.
  - destruct (message_has case_sens word m); simpl; lia.
  - destruct (message_has case_sens word m), (message_has case_sens word m');
      reflexivity.
  - lia.
Qed.

Lemma hits_app (case_sens : bool) (word : string) (ms ms' : list BaseMessage) :
  hits case_sens word (ms ++ ms')
  = hits case_sens word ms + hits case_sens word ms'.
Proof. unfold hits. rewrite filter_app, length_app. lia. Qed.

Lemma hits_nonneg (case_sens : bool) (word : string) (ms : list BaseMessage) :
  0 <= hits case_sens word ms.
Proof. unfold hits. lia. Qed.

Lemma is_terminated_idle (self : ResponseWordsTerminator)
  (messages : list BaseMessage) :
  invariant self -> mode self = ANY \/ mode self = ALL ->
  update_counts self messages = _word_count_dict self ->
  is_terminated self messages
  = Return self (_terminated self, _termination_reason self).
Proof.
  intros [Hwf Hinv _] Hmode Hsame.
  assert (counted self messages = self) as Hcounted
    by (unfold counted; rewrite Hsame; now destruct self).
  destruct (_terminated self) eqn:Hlatch.
  - now apply is_terminated_latched.
  - destruct (Hinv eq_refl) as [Hnone Hnot].
    rewrite is_terminated_active;
      [|apply counted_well_formed; assumption | assumption].
    cbv zeta. rewrite Hcounted, Hnot, Hnone.
    destruct Hmode as [-> | ->]; reflexivity.
Qed.

(** X1. The outcome of [is_terminated] depends on the batch only through
    the number of messages that contain each watched word: two batches
    with the same numbers of hits give the same result and leave the same
    object. *)
Theorem batch_acts_through_hits (self : ResponseWordsTerminator)
  (ms ms' : list BaseMessage) :
  (forall word, In word (keys (words_dict self)) ->
     hits (case_sensitive self) word ms = hits (case_sensitive self) word ms') ->
  is_terminated self ms = is_terminated self ms'.
Proof. apply is_terminated_same_hits. Qed.

Lemma batch_acts_through_hits_witness :
  is_terminated (watch [("bye", 2); ("stop", 3)] false ANY)
    [msg "bye"; msg "hello"; msg "stop, bye"]
  = is_terminated (watch [("bye", 2); ("stop", 3)] false ANY)
      [msg "Bye and STOP"; msg "goodbye"].
Proof.
  apply (batch_acts_through_hits
           (watch [("bye", 2); ("stop", 3)] false ANY)).
  intros word [<-|[<-|[]]]; reflexivity.
Defined.

(** X2. The order of the messages inside a batch does not matter: a
    permutation of the batch gives the same result and leaves the same
    object. *)
Theorem batch_order_irrelevant (self : ResponseWordsTerminator)
  (ms ms' : list BaseMessage) :
  Permutation ms ms' -> is_terminated self ms = is_terminated self ms'.
Proof.
  intros H. apply is_terminated_same_hits.
  intros word _. now apply hits_permutation.
Qed.

Lemma batch_order_irrelevant_witness :
  is_terminated (watch [("bye", 1); ("stop", 1)] false ANY)
    [msg "stop"; msg "bye"]
  = is_terminated (watch [("bye", 1); ("stop", 1)] false ANY)
      [msg "bye"; msg "stop"].
Proof.
  apply (batch_order_irrelevant
           (watch [("bye", 1); ("stop", 1)] false ANY)).
  apply perm_swap.
Defined.

(** X3. In a reachable state with mode ANY or ALL, a batch none of whose
    messages contains a watched word is a pure pass-through: nothing is
    raised, the object is left exactly as it was (no counter entry is
    created), and the current (terminated, reason) pair is returned. *)
Theorem non_matching_passthrough (self : ResponseWordsTerminator)
  (messages : list BaseMessage) :
  reachable self -> mode self = ANY \/ mode self = ALL ->
  (forall word message,
     In word (keys (words_dict self)) -> In message messages ->
     message_has (case_sensitive self) word message = false) ->
  is_terminated self messages
  = Return self (_terminated self, _termination_reason self).
Proof.
  intros Hreach Hmode Hnone.
  apply is_terminated_idle; [now apply reachable_invariant | assumption |].
  rewrite update_counts_unfold.
  rewrite (count_words_same_hits _ messages []), count_words_nil;
    [reflexivity|].
  intros word Hin. unfold hits. f_equal. simpl.
  rewrite filter_nil_all; [reflexivity|]. intros m Hm. now apply Hnone.
Qed.

Lemma non_matching_passthrough_witness :
  is_terminated (watch [("bye", 1); ("stop", 1)] true ALL)
    [msg "Bye"; msg "STOP"; msg ""]
  = Return (watch [("bye", 1); ("stop", 1)] true ALL) (false, None).
Proof.
  apply (non_matching_passthrough
           (watch [("bye", 1); ("stop", 1)] true ALL)).
  - apply watch_reachable; reflexivity.
  - right. reflexivity.
  - intros word message [<-|[<-|[]]] [<-|[<-|[<-|[]]]]; reflexivity.
Defined.

(** ** The decision in terms of the input *)

Lemma terminated_after (self : ResponseWordsTerminator)
  (messages : list BaseMessage) :
  well_formed self ->
  _terminated (state_of (is_terminated self messages))
  = _terminated self || aggregation_met (counted self messages).
Proof.
  intros Hwf. destruct (_terminated self) eqn:Hlatch.
  - now rewrite is_terminated_latched.
  - rewrite is_terminated_active;
      [|apply counted_well_formed; assumption | assumption].
    cbv zeta. destruct (mode self) eqn:Em.
    + destruct (aggregation_met (counted self messages)); simpl;
        [reflexivity | assumption].
    + destruct (aggregation_met (counted self messages)); simpl;
        [reflexivity | assumption].
    + unfold aggregation_met.
      change (mode (counted self messages)) with (mode self).
      rewrite Em. simpl. assumption.
Qed.

Lemma aggregation_mono (a b : ResponseWordsTerminator) :
  well_formed a -> well_formed b ->
  words_dict a = words_dict b -> mode a = mode b ->
  (forall word threshold,
     In (word, threshold) (words_dict a) -> counter a word <= counter b word) ->
  aggregation_met a = true -> aggregation_met b = true.
Proof.
  intros Hwa Hwb Hwords Hmode Hle Hmet.
  destruct (mode a) eqn:Em.
  - apply (any_reached_met _ Hwb (eq_sym Hmode)).
    apply (any_reached_met _ Hwa Em) in Hmet.
    destruct Hmet as [w [t [Hin Ht]]]. exists w, t.
    rewrite <- Hwords. split; [assumption|].
    specialize (Hle w t Hin). lia.
  - apply (all_reached_met _ Hwb (eq_sym Hmode)).
    apply (all_reached_met _ Hwa Em) in Hmet.
    intros w t Hin. rewrite <- Hwords in Hin.
    specialize (Hle w t Hin). specialize (Hmet w t Hin). lia.
  - unfold aggregation_met in Hmet. rewrite Em in Hmet. discriminate.
Qed.

Lemma aggregation_same_counters (a b : ResponseWordsTerminator) :
  well_formed a -> well_formed b ->
  words_dict a = words_dict b -> mode a = mode b ->
  (forall word threshold,
     In (word, threshold) (words_dict a) -> counter a word = counter b word) ->
  aggregation_met a = aggregation_met b.
Proof.
  intros Hwa Hwb Hwords Hmode Heq.
  destruct (aggregation_met a) eqn:Ea, (aggregation_met b) eqn:Eb;
    try reflexivity.
  - rewrite <- Eb. symmetry.
    apply (aggregation_mono a b); auto.
    intros w t Hin. rewrite (Heq w t Hin). lia.
  - rewrite <- Ea.
    apply (aggregation_mono b a); auto.
    intros w t Hin. rewrite Hwords in Heq. rewrite (Heq w t Hin). lia.
Qed.

(** X4. In ANY mode, a call on a reachable object whose latch is unset
    terminates exactly when some watched word's counter before the call
    plus the number of messages of the batch that contain the word
    reaches the word's threshold. *)
Theorem any_mode_criterion (self : ResponseWordsTerminator)
  (messages : list BaseMessage) :
  reachable self -> mode self = ANY -> _terminated self = false ->
  (_terminated (state_of (is_terminated self messages)) = true <->
   exists word threshold,
     In (word, threshold) (words_dict self)
     /\ threshold
        <= counter self word + hits (case_sensitive self) word messages).
Proof.
  intros Hreach Hmode Hact.
  destruct (reachable_invariant _ Hreach) as [Hwf _ _].
  pose proof (counted_well_formed _ messages Hwf) as Hwf1.
  rewrite (terminated_after _ _ Hwf), Hact. simpl.
  rewrite (any_reached_met _ Hwf1 Hmode). unfold any_reached. simpl.
  split; intros [w [t [Hin Ht]]]; exists w, t; (split; [assumption|]).
  - rewrite <- counted_counter; [assumption | apply Hwf |].
    eapply In_keys; eauto.
  - rewrite counted_counter; [assumption | apply Hwf |].
    eapply In_keys; eauto.
Qed.

Lemma any_mode_criterion_witness :
  _terminated
    (state_of (is_terminated (watch [("bye", 3); ("stop", 2)] false ANY)
                 [msg "stop"; msg "bye"; msg "Stop it"]))
  = true.
Proof.
  apply (any_mode_criterion (watch [("bye", 3); ("stop", 2)] false ANY)).
  - apply watch_reachable; reflexivity.
  - reflexivity.
  - reflexivity.
  - exists "stop", 2. split; [right; now left | vm_compute; discriminate].
Defined.

(** X5. In ALL mode, a call on a reachable object whose latch is unset
    terminates exactly when, for every watched word, the counter before
    the call plus the number of messages of the batch that contain the
    word reaches the word's threshold. *)
Theorem all_mode_criterion (self : ResponseWordsTerminator)
  (messages : list BaseMessage) :
  reachable self -> mode self = ALL -> _terminated self = false ->
  (_terminated (state_of (is_terminated self messages)) = true <->
   forall word threshold,
     In (word, threshold) (words_dict self) ->
     threshold
     <= counter self word + hits (case_sensitive self) word messages).
Proof.
  intros Hreach Hmode Hact.
  destruct (reachable_invariant _ Hreach) as [Hwf _ _].
  pose proof (counted_well_formed _ messages Hwf) as Hwf1.
  rewrite (terminated_after _ _ Hwf), Hact. simpl.
  rewrite (all_reached_met _ Hwf1 Hmode). unfold all_reached. simpl.
  split; intros H w t Hin; specialize (H w t Hin).
  - rewrite <- counted_counter; [assumption | apply Hwf |].
    eapply In_keys; eauto.
  - rewrite counted_counter; [assumption | apply Hwf |].
    eapply In_keys; eauto.
Qed.

Lemma all_mode_criterion_witness :
  _terminated
    (state_of (is_terminated (watch [("bye", 1); ("stop", 2)] false ALL)
                 [msg "stop"; msg "bye"; msg "Stop it"]))
  = true.
Proof.
  apply (all_mode_criterion (watch [("bye", 1); ("stop", 2)] false ALL)).
  - apply watch_reachable; reflexivity.
  - reflexivity.
  - reflexivity.
  - intros word threshold [[= <- <-]|[[= <- <-]|[]]];
      vm_compute; discriminate.
Defined.

(** ** Splitting a batch over two calls *)

Lemma counter_after_call (self : ResponseWordsTerminator)
  (messages : list BaseMessage) (word : string) :
  _terminated self = false ->
  counter (state_of (is_terminated self messages)) word
  = counter (counted self messages) word.
Proof. intros Hact. unfold counter. now rewrite is_terminated_counts. Qed.

Lemma counted_twice (self s1 : ResponseWordsTerminator)
  (ms1 ms2 : list BaseMessage) (word : string) :
  is_dict (words_dict self) ->
  words_dict s1 = words_dict self ->
  case_sensitive s1 = case_sensitive self ->
  (forall w, counter s1 w = counter (counted self ms1) w) ->
  counter (counted s1 ms2) word = counter (counted self (ms1 ++ ms2)) word.
Proof.
  intros Hd Hwords Hcase Hs1.
  destruct (in_dec string_dec word (keys (words_dict self))) as [Hin|Hnotin].
  - rewrite !counted_counter, Hs1, counted_counter, Hcase, hits_app;
      try assumption; try (rewrite Hwords; assumption).
    lia.
  - rewrite !counted_counter_unwatched, Hs1, counted_counter_unwatched;
      try assumption; try (rewrite Hwords; assumption).
    reflexivity.
Qed.

(** X6. Delivering a batch in two successive calls instead of one never
    changes the decision: after the calls on [ms1] and then [ms2] the
    latch is set exactly when it is set after the single call on
    [ms1 ++ ms2].  If the first call did not terminate, all the counters
    agree as well. *)
Theorem batch_split (self : ResponseWordsTerminator)
  (ms1 ms2 : list BaseMessage) :
  reachable self ->
  let s1 := state_of (is_terminated self ms1) in
  let s2 := state_of (is_terminated s1 ms2) in
  let s12 := state_of (is_terminated self (ms1 ++ ms2)) in
  _terminated s2 = _terminated s12
  /\ (_terminated s1 = false ->
      forall word, counter s2 word = counter s12 word).
Proof.
  intros Hreach s1 s2 s12.
  destruct (reachable_invariant _ Hreach) as [Hwf _ _].
  assert (reachable s1) as Hreach1
    by apply (reachable_run_call _ (IsTerminated ms1) Hreach).
  destruct (reachable_invariant _ Hreach1) as [Hwf1 _ _].
  destruct (is_terminated_config self ms1) as (Hwords & Hcase & Hmode).
  fold s1 in Hwords, Hcase, Hmode.
  pose proof (terminated_after self ms1 Hwf) as H1. fold s1 in H1.
  pose proof (terminated_after s1 ms2 Hwf1) as H2. fold s2 in H2.
  pose proof (terminated_after self (ms1 ++ ms2) Hwf) as H12. fold s12 in H12.
  destruct (_terminated self) eqn:Hlatch.
  - simpl in H1, H12. rewrite H1 in H2. simpl in H2.
    split; [congruence|]. intros E. congruence.
  - simpl in H1, H12.
    assert (forall w, _terminated s1 = false ->
              counter s1 w = counter (counted self ms1) w) as Hs1
      by (intros w _; now apply counter_after_call).
    destruct (aggregation_met (counted self ms1)) eqn:Emet.
    + rewrite H1 in H2. simpl in H2. split; [|congruence].
      rewrite H2, H12. symmetry.
      apply (aggregation_mono (counted self ms1) (counted self (ms1 ++ ms2)));
        try reflexivity; try assumption;
        try (apply counted_well_formed; assumption).
      intros w t Hin. simpl in Hin.
      rewrite !counted_counter, hits_app;
        try exact (wf_words _ Hwf); try (eapply In_keys; eassumption).
      pose proof (hits_nonneg (case_sensitive self) w ms2). lia.
    + assert (forall w, counter (counted s1 ms2) w
                        = counter (counted self (ms1 ++ ms2)) w) as Hsame.
      { intros w. apply counted_twice; try assumption; [apply Hwf|].
        intros w'. now apply Hs1. }
      split.
      * rewrite H2, H12, H1. simpl.
        apply aggregation_same_counters;
          try (apply counted_well_formed; assumption);
          [exact Hwords | exact Hmode |].
        intros w t _. apply Hsame.
      * intros _ w. unfold s2, s12.
        rewrite !counter_after_call by assumption. apply Hsame.
Qed.

Lemma batch_split_witness :
  _terminated
    (state_of
       (is_terminated
          (state_of (is_terminated (watch [("bye", 2)] false ANY)
                       [msg "bye"]))
          [msg "Bye again"]))
  = _terminated
      (state_of (is_terminated (watch [("bye", 2)] false ANY)
                   ([msg "bye"] ++ [msg "Bye again"]))).
Proof.
  apply (batch_split (watch [("bye", 2)] false ANY)
           [msg "bye"] [msg "Bye again"]).
  apply watch_reachable; reflexivity.
Defined.

(** ** The shape of the counter table *)

Lemma In_set (d : dict Z) (k k' : string) (v v' : Z) :
  In (k', v') (set d k v) -> (k', v') = (k, v) \/ In (k', v') d.
Proof.
  induction d as [|[k0 v0] d IH]; simpl.
  - intros [E|[]]. left. now symmetry.
  - destruct (String.eqb_spec k k0) as [->|Hne]; simpl.
    + intros [E|Hin]; [left; now symmetry | right; now right].
    + intros [E|Hin]; [right; now left|].
      destruct (IH Hin) as [E|Hin']; [now left | right; now right].
Qed.

Lemma counts_positive_incr (d : dict Z) (word : string) :
  counts_positive d -> counts_positive (incr d word).
Proof.
  intros Hpos w v Hin. unfold incr in Hin.
  apply In_set in Hin as [[= -> ->]|Hin]; [|eauto].
  unfold get_default. destruct (get d word) as [v0|] eqn:E; [|lia].
  apply get_Some_In in E. specialize (Hpos _ _ E). lia.
Qed.

Lemma counts_positive_count_word (case_sens : bool)
  (messages : list BaseMessage) (d : dict Z) (word : string) :
  counts_positive d -> counts_positive (count_word case_sens messages d word).
Proof.
  rewrite count_word_iter.
  induction (List.length (filter (message_has case_sens word) messages))
    as [|n IH]; simpl; intros Hpos; [assumption|].
  apply counts_positive_incr. auto.
Qed.

Lemma counts_positive_count_words (case_sens : bool)
  (messages : list BaseMessage) (words : list string) (d : dict Z) :
  counts_positive d ->
  counts_positive (count_words case_sens messages words d).
Proof.
  unfold count_words. revert d.
  induction words as [|w ws IH]; intros d Hpos; simpl; [assumption|].
  apply IH. now apply counts_positive_count_word.
Qed.

Lemma counts_positive_call (self : ResponseWordsTerminator) (c : call) :
  counts_positive (_word_count_dict self) ->
  counts_positive (_word_count_dict (run_call self c)).
Proof.
  intros Hpos. destruct c as [messages|]; simpl.
  - destruct (_terminated self) eqn:Hlatch.
    + now rewrite is_terminated_latched.
    + rewrite is_terminated_counts by assumption.
      rewrite update_counts_unfold. now apply counts_positive_count_words.
  - intros w v [].
Qed.

Lemma reachable_counts_positive (self : ResponseWordsTerminator) :
  reachable self -> counts_positive (_word_count_dict self).
Proof.
  intros [words [case_sens [m [init [[_ Hinit] Hev]]]]].
  apply init_shape in Hinit. subst init.
  induction Hev as [|s c Hev IH].
  - intros w v [].
  - now apply counts_positive_call.
Qed.

(** X7. In every reachable state the counter table holds only watched
    words, each at most once and each with a count of at least 1 (an
    entry is created only by a hit), so it never has more entries than
    there are watched words and the threshold lookup of the second loop
    always finds its key. *)
Theorem counter_table_shape (self : ResponseWordsTerminator) :
  reachable self ->
  is_dict (_word_count_dict self)
  /\ (forall word value,
        In (word, value) (_word_count_dict self) ->
        1 <= value
        /\ counter self word = value
        /\ exists threshold, get (words_dict self) word = Some threshold)
  /\ len (_word_count_dict self) <= len (words_dict self).
Proof.
  intros Hreach.
  destruct (reachable_invariant _ Hreach) as [[Hwd _ _ Hcd Hincl] _ _].
  pose proof (reachable_counts_positive _ Hreach) as Hpos.
  split; [assumption|]. split.
  - intros word value Hin. split; [eauto|]. split.
    + unfold counter, get_default. now rewrite (In_get _ _ _ Hcd Hin).
    + apply key_get, Hincl. eapply In_keys; eauto.
  - unfold len. apply inj_le.
    replace (List.length (_word_count_dict self))
      with (List.length (keys (_word_count_dict self)))
      by (unfold keys; apply length_map).
    replace (List.length (words_dict self))
      with (List.length (keys (words_dict self)))
      by (unfold keys; apply length_map).
    now apply NoDup_incl_length.
Qed.

Lemma counter_table_shape_witness :
  len (_word_count_dict
         (state_of
            (is_terminated (watch [("bye", 5); ("stop", 5)] false ANY)
               [msg "bye"; msg "bye bye"; msg "stop"])))
  <= 2.
Proof.
  destruct (counter_table_shape
              (state_of
                 (is_terminated (watch [("bye", 5); ("stop", 5)] false ANY)
                    [msg "bye"; msg "bye bye"; msg "stop"])))
    as (_ & _ & Hlen).
  - apply (reachable_run_call _ (IsTerminated _)).
    apply watch_reachable; reflexivity.
  - exact Hlen.
Defined.

(** ** The order of the counter table *)

Lemma mem_In (word : string) (l : list string) :
  mem word l = true <-> In word l.
Proof.
  unfold mem. rewrite existsb_exists. split.
  - intros [x [Hin E]]. apply String.eqb_eq in E. now subst.
  - intros Hin. exists word. split; [assumption | apply String.eqb_refl].
Qed.

Lemma keys_incr (d : dict Z) (word : string) :
  keys (incr d word)
  = if mem word (keys d) then keys d else (keys d ++ [word])%list.
Proof.
  unfold incr. destruct (mem word (keys d)) eqn:E.
  - apply keys_set_old. now apply mem_In.
  - apply keys_set_new. intros Hin. apply mem_In in Hin. congruence.
Qed.

Lemma keys_iter_incr (n : nat) (d : dict Z) (word : string) :
  keys (Nat.iter n (fun t => incr t word) d)
  = match n with
    | O => keys d
    | S _ => if mem word (keys d) then keys d else (keys d ++ [word])%list
    end.
Proof.
  induction n as [|n IH]; [reflexivity|].
  simpl Nat.iter. rewrite keys_incr, IH.
  destruct n as [|n]; [reflexivity|].
  destruct (mem word (keys d)) eqn:E; [now rewrite E|].
  assert (mem word (keys d ++ [word]) = true) as ->; [|reflexivity].
  apply mem_In, in_or_app. right. now left.
Qed.

Lemma keys_count_word (case_sens : bool) (messages : list BaseMessage)
  (d : dict Z) (word : string) :
  keys (count_word case_sens messages d word)
  = if (0 <? hits case_sens word messages) && negb (mem word (keys d))
    then (keys d ++ [word])%list
    else keys d.
Proof.
  rewrite count_word_iter, keys_iter_incr. unfold hits.
  destruct (List.length (filter (message_has case_sens word) messages))
    as [|n]; [reflexivity|].
  assert ((0 <? Z.of_nat (S n)) = true) as -> by (apply Z.ltb_lt; lia).
  now destruct (mem word (keys d)).
Qed.

Lemma keys_count_words (case_sens : bool) (messages : list BaseMessage)
  (words : list string) (d : dict Z) :
  NoDup words ->
  keys (count_words case_sens messages words d)
  = (keys d ++ newly_counted case_sens messages d words)%list.
Proof.
  unfold count_words. revert d.
  induction words as [|w ws IH]; intros d Hnd; simpl.
  - now rewrite app_nil_r.
  - inversion Hnd as [|? ? Hnotin Hnd']; subst.
    rewrite IH by assumption.
    assert (newly_counted case_sens messages
              (count_word case_sens messages d w) ws
            = newly_counted case_sens messages d ws) as ->.
    { unfold newly_counted. apply filter_ext_in. intros x Hx.
      f_equal. f_equal. rewrite keys_count_word.
      destruct (_ && _); [|reflexivity].
      destruct (mem x (keys d)) eqn:E.
      - apply mem_In. apply in_or_app. left. now apply mem_In.
      - destruct (mem x (keys d ++ [w])) eqn:E'; [|reflexivity].
        apply mem_In, in_app_or in E' as [Hin|[<-|[]]].
        + apply mem_In in Hin. congruence.
        + contradiction. }
    rewrite keys_count_word. unfold newly_counted at 2. simpl filter.
    destruct (_ && _); [|reflexivity].
    now rewrite <- app_assoc.
Qed.



(** X9. [is_terminated] never lowers a counter and never removes an
    entry of the counter table, whether or not the latch is set. *)
Theorem counters_never_decrease (self : ResponseWordsTerminator)
  (messages : list BaseMessage) (word : string) :
  is_dict (words_dict self) ->
  counter self word <= counter (state_of (is_terminated self messages)) word
  /\ incl (keys (_word_count_dict self))
       (keys (_word_count_dict (state_of (is_terminated self messages)))).
Proof.
  intros Hd. destruct (_terminated self) eqn:Hlatch.
  - rewrite is_terminated_latched by assumption. simpl.
    split; [lia | apply incl_refl].
  - split.
    + rewrite counter_after_call by assumption.
      destruct (in_dec string_dec word (keys (words_dict self))) as [Hin|Hnot].
      * rewrite counted_counter by assumption.
        pose proof (hits_nonneg (case_sensitive self) word messages). lia.
      * rewrite counted_counter_unwatched by assumption. lia.
    + rewrite is_terminated_counts by assumption.
      rewrite update_counts_unfold, keys_count_words by assumption.
      apply incl_appl, incl_refl.
Qed.

Lemma counters_never_decrease_witness :
  counter (watch [("bye", 2)] false ANY) "bye"
  <= counter (state_of (is_terminated (watch [("bye", 2)] false ANY)
                          [msg "bye"]))
       "bye".
Proof.
  apply (counters_never_decrease (watch [("bye", 2)] false ANY)
           [msg "bye"] "bye").
  apply distinct_NoDup. reflexivity.
Defined.

(** ** The latch and the counters *)

Lemma reachable_latch_current (self : ResponseWordsTerminator) :
  reachable self -> _terminated self = true ->
  aggregation_met self = true
  /\ _termination_reason self = Some (joined_reason self).
Proof.
  intros [words [case_sens [m [init [Hinit Hev]]]]].
  induction Hev as [|s c Hev IH].
  - destruct Hinit as [_ Hinit]. apply init_shape in Hinit. subst init.
    discriminate.
  - assert (reachable s) as Hreach
      by (exists words, case_sens, m, init; auto).
    destruct (reachable_invariant _ Hreach) as [Hwf _ _].
    destruct c as [messages|]; simpl; [|discriminate].
    destruct (_terminated s) eqn:Hlatch.
    + rewrite is_terminated_latched by assumption. simpl.
      intros _. now apply IH.
    + rewrite is_terminated_active;
        [|apply counted_well_formed; assumption | assumption].
      cbv zeta.
      destruct (mode s) eqn:Em;
        [| |simpl; congruence];
        (destruct (aggregation_met (counted s messages)) eqn:Emet; simpl;
         [intros _; split; [exact Emet | reflexivity] | congruence]).
Qed.

(** X10. In every reachable state with mode ANY or ALL the latch tells
    exactly whether the aggregation condition holds for the current
    counters (some watched word reached under ANY, every watched word
    reached under ALL), and the stored reason always describes the
    current counters: it is the joined reason lines of the words reached
    now while the latch is set, and none while it is unset. *)
Theorem latch_tracks_condition (self : ResponseWordsTerminator) :
  reachable self ->
  (mode self = ANY -> (_terminated self = true <-> any_reached self))
  /\ (mode self = ALL -> (_terminated self = true <-> all_reached self))
  /\ (_terminated self = true ->
      _termination_reason self = Some (joined_reason self))
  /\ (_terminated self = false -> _termination_reason self = None).
Proof.
  intros Hreach.
  destruct (reachable_invariant _ Hreach) as [Hwf Hinv _].
  pose proof (reachable_latch_current _ Hreach) as Hcur.
  assert (_terminated self = true <-> aggregation_met self = true) as Hiff.
  { split; [intros H; now apply Hcur|].
    intros Hmet. destruct (_terminated self); [reflexivity|].
    destruct (Hinv eq_refl) as [_ Hnot]. congruence. }
  split; [|split; [|split]].
  - intros Hmode. now rewrite Hiff, (any_reached_met _ Hwf Hmode).
  - intros Hmode. now rewrite Hiff, (all_reached_met _ Hwf Hmode).
  - intros H. now apply Hcur.
  - intros H. now apply Hinv.
Qed.

Lemma latch_tracks_condition_witness :
  _termination_reason
    (state_of (is_terminated (watch [("bye", 1)] false ANY) [msg "bye"]))
  = Some (joined_reason
            (state_of (is_terminated (watch [("bye", 1)] false ANY)
                         [msg "bye"]))).
Proof.
  destruct (latch_tracks_condition
              (state_of (is_terminated (watch [("bye", 1)] false ANY)
                           [msg "bye"]))) as (_ & _ & Hreason & _).
  - apply (reachable_run_call _ (IsTerminated _)).
    apply watch_reachable; reflexivity.
  - apply Hreason. reflexivity.
Defined.

(** X11. On a reachable object [is_terminated] never raises [KeyError],
    whatever the messages, and with mode ANY or ALL it raises nothing at
    all: it returns, and the pair it returns is the latch of the object
    it leaves. *)
Theorem is_terminated_returns (self : ResponseWordsTerminator)
  (messages : list BaseMessage) :
  reachable self ->
  (forall self' key, is_terminated self messages <> Raise self' (KeyError key))
  /\ (mode self = ANY \/ mode self = ALL ->
      let self' := state_of (is_terminated self messages) in
      is_terminated self messages
      = Return self' (_terminated self', _termination_reason self')).
Proof.
  intros Hreach.
  destruct (reachable_invariant _ Hreach) as [Hwf Hinv _].
  destruct (_terminated self) eqn:Hlatch.
  - rewrite is_terminated_latched by assumption. simpl.
    split; [discriminate|]. intros _. now rewrite Hlatch.
  - destruct (Hinv eq_refl) as [Hnone _].
    rewrite is_terminated_active;
      [|apply counted_well_formed; assumption | assumption].
    cbv zeta. split.
    + intros self' key.
      destruct (mode self); try discriminate;
        destruct (aggregation_met (counted self messages)); discriminate.
    + intros [Em|Em]; rewrite Em;
        (destruct (aggregation_met (counted self messages)); simpl;
         [reflexivity | now rewrite Hlatch, Hnone]).
Qed.

Lemma is_terminated_returns_witness :
  is_terminated (watch [("bye", 2); ("stop", 1)] false ALL) [msg "bye"]
  = Return
      (state_of (is_terminated (watch [("bye", 2); ("stop", 1)] false ALL)
                   [msg "bye"]))
      (false, None).
Proof.
  destruct (is_terminated_returns
              (watch [("bye", 2); ("stop", 1)] false ALL) [msg "bye"])
    as (_ & Hret).
  - apply watch_reachable; reflexivity.
  - rewrite Hret; [reflexivity | right; reflexivity].
Defined.

(** X12. No call changes the configuration: after any sequence of
    [is_terminated] and [reset] calls, failed ones included, the watched
    words with their thresholds, the case-sensitivity flag and the mode
    are those given to the constructor. *)
Theorem configuration_fixed (words : dict Z) (case_sens : bool)
  (m : TerminationMode) (init : ResponseWordsTerminator)
  (calls : list call) :
  __init__ words case_sens m = inr init ->
  words_dict (run init calls) = words
  /\ case_sensitive (run init calls) = case_sens
  /\ mode (run init calls) = m.
Proof.
  intros Hinit. apply init_shape in Hinit. subst init.
  assert (evolves (watch words case_sens m)
            (run (watch words case_sens m) calls)) as Hev.
  { unfold run.
    assert (forall s, evolves (watch words case_sens m) s ->
              evolves (watch words case_sens m) (fold_left run_call calls s))
      as Hrun.
    { induction calls as [|c calls IH]; intros s Hs; simpl; [assumption|].
      apply IH. now constructor. }
    apply Hrun. constructor. }
  exact (evolves_config _ _ Hev).
Qed.

Lemma configuration_fixed_witness :
  mode (run (watch [("bye", 1)] true (OtherMode "first"))
          [IsTerminated [msg "bye"]; Reset; IsTerminated []])
  = OtherMode "first".
Proof.
  apply (configuration_fixed [("bye", 1)] true (OtherMode "first")).
  reflexivity.
Defined.

Lemma filter_all {A} (f : A -> bool) (l : list A) :
  (forall x, In x l -> f x = true) -> filter f l = l.
Proof.
  induction l as [|x l IH]; simpl; intros H; [reflexivity|].
  rewrite (H x) by now left. f_equal. apply IH. intros y Hy. apply H. now right.
Qed.

(** X13. Whenever the latch of a reachable object in ALL mode is set,
    its reason has one line for every watched word: the words the reason
    lists are a permutation of the watched words. *)
Theorem all_reason_lists_every_word (self : ResponseWordsTerminator) :
  reachable self -> mode self = ALL -> _terminated self = true ->
  Permutation (reached_in_order self) (keys (words_dict self))
  /\ _termination_reason self
     = Some (PyStr.join PyStr.newline
               (map (reason_of self) (reached_in_order self)))
  /\ List.length (reached_in_order self) = List.length (words_dict self).
Proof.
  intros Hreach Hmode Hlatch.
  destruct (reachable_invariant _ Hreach) as [Hwf _ _].
  destruct (reachable_latch_current _ Hreach Hlatch) as [Hmet Hreason].
  apply (all_reached_met _ Hwf Hmode) in Hmet.
  assert (reached_words self = keys (words_dict self)) as Hall.
  { unfold reached_words. rewrite filter_all; [reflexivity|].
    intros [w t] Hin. unfold word_reached. simpl.
    apply Z.leb_le. now apply Hmet. }
  assert (Permutation (reached_in_order self) (keys (words_dict self)))
    as Hperm by (rewrite <- Hall; now apply reached_in_order_perm).
  split; [assumption|]. split; [assumption|].
  rewrite (Permutation_length Hperm). unfold keys. apply length_map.
Qed.

Lemma all_reason_lists_every_word_witness :
  List.length
    (reached_in_order
       (run (watch [("bye", 1); ("stop", 1)] false ALL)
          [IsTerminated [msg "stop"]; IsTerminated [msg "bye"]]))
  = 2%nat.
Proof.
  destruct (all_reason_lists_every_word
              (run (watch [("bye", 1); ("stop", 1)] false ALL)
                 [IsTerminated [msg "stop"]; IsTerminated [msg "bye"]]))
    as (_ & _ & Hlen).
  - apply (reachable_run_call _ (IsTerminated [msg "bye"])).
    apply (reachable_run_call _ (IsTerminated [msg "stop"])).
    apply watch_reachable; reflexivity.
  - reflexivity.
  - reflexivity.
  - exact Hlen.
Defined.

(** ** Matching *)

Lemma message_has_empty_word (case_sens : bool) (message : BaseMessage) :
  message_has case_sens "" message = true.
Proof.
  unfold message_has. destruct case_sens; simpl;
    match goal with |- PyStr.contains "" ?s = true => now destruct s end.
Qed.

(** X14. The empty string is contained in every content: a watched word
    that is empty is counted once for every message of the batch,
    whatever the messages say and whatever the case sensitivity. *)
Theorem empty_word_counts_every_message (self : ResponseWordsTerminator)
  (messages : list BaseMessage) :
  is_dict (words_dict self) -> _terminated self = false ->
  In "" (keys (words_dict self)) ->
  counter (state_of (is_terminated self messages)) ""
  = counter self "" + Z.of_nat (List.length messages).
Proof.
  intros Hd Hact Hin.
  rewrite counter_after_call, counted_counter by assumption.
  f_equal. unfold hits. f_equal. f_equal.
  apply filter_all. intros m _. apply message_has_empty_word.
Qed.

Lemma empty_word_counts_every_message_witness :
  counter (state_of (is_terminated (watch [("", 5)] true ANY)
                       [msg "hello"; msg ""; msg "bye"]))
    ""
  = 3.
Proof.
  rewrite (empty_word_counts_every_message (watch [("", 5)] true ANY)).
  - reflexivity.
  - apply distinct_NoDup. reflexivity.
  - reflexivity.
  - now left.
Defined.




(** ** ALL against ANY *)

Lemma all_reached_any (self : ResponseWordsTerminator) :
  words_dict self <> [] -> all_reached self -> any_reached self.
Proof.
  intros Hne Hall. destruct (words_dict self) as [|[w t] rest] eqn:E.
  - contradiction.
  - exists w, t. rewrite E. split; [now left|].
    apply Hall. rewrite E. now left.
Qed.

Lemma paired_call (a b : ResponseWordsTerminator) (c : call) :
  paired a b -> paired (run_call a c) (run_call b c).
Proof.
  intros [Ha Hb Hwords Hcase Hall Hany Hlatch Hcounts].
  destruct c as [messages|].
  - simpl.
    destruct (is_terminated_config a messages) as (Ewa & Eca & Ema).
    destruct (is_terminated_config b messages) as (Ewb & Ecb & Emb).
    destruct (reachable_invariant _ Ha) as [Hwfa _ _].
    destruct (reachable_invariant _ Hb) as [Hwfb _ _].
    pose proof (terminated_after a messages Hwfa) as Hta.
    pose proof (terminated_after b messages Hwfb) as Htb.
    split;
      try (apply (reachable_run_call _ (IsTerminated messages)); assumption);
      try congruence.
    + destruct (_terminated b) eqn:Eb; [intros _; now rewrite Htb|].
      specialize (Hcounts eq_refl).
      destruct (_terminated a) eqn:Ea; [now specialize (Hlatch eq_refl)|].
      rewrite Hta, Htb. simpl. intros Hmet.
      pose proof (counted_well_formed _ messages Hwfa) as Hwfa1.
      pose proof (counted_well_formed _ messages Hwfb) as Hwfb1.
      apply (all_reached_met _ Hwfa1 Hall) in Hmet.
      apply (any_reached_met _ Hwfb1 Hany).
      apply all_reached_any in Hmet; [|apply Hwfa1].
      destruct Hmet as [w [t [Hin Ht]]]. exists w, t. simpl in *.
      rewrite <- Hwords. split; [assumption|].
      unfold counter in *. simpl in *.
      unfold update_counts in *. now rewrite <- Hcounts, <- Hwords, <- Hcase.
    + intros Hunset.
      destruct (_terminated b) eqn:Eb;
        [rewrite Htb in Hunset; discriminate|].
      specialize (Hcounts eq_refl).
      destruct (_terminated a) eqn:Ea; [now specialize (Hlatch eq_refl)|].
      rewrite !is_terminated_counts by assumption.
      unfold update_counts. now rewrite Hcounts, Hwords, Hcase.
  - simpl. split; simpl; try assumption; try reflexivity;
      try (apply (reachable_run_call _ Reset); assumption).
    discriminate.
Qed.

Lemma paired_run (calls : list call) (a b : ResponseWordsTerminator) :
  paired a b -> paired (run a calls) (run b calls).
Proof.
  unfold run. revert a b.
  induction calls as [|c calls IH]; intros a b H; simpl; [assumption|].
  apply IH. now apply paired_call.
Qed.

(** X16. ALL is at least as strict as ANY: when two terminators are
    constructed on the same watch specification, one in ALL mode and one
    in ANY mode, and receive the same sequence of [is_terminated] and
    [reset] calls, the ANY terminator is terminated whenever the ALL
    terminator is. *)
Theorem all_stricter_than_any (words : dict Z) (case_sens : bool)
  (all_init any_init : ResponseWordsTerminator) (calls : list call) :
  is_dict words ->
  __init__ words case_sens ALL = inr all_init ->
  __init__ words case_sens ANY = inr any_init ->
  _terminated (run all_init calls) = true ->
  _terminated (run any_init calls) = true.
Proof.
  intros Hd Hall Hany.
  assert (paired all_init any_init) as Hpair.
  { pose proof (init_shape _ _ _ _ Hall) as Ea.
    pose proof (init_shape _ _ _ _ Hany) as Eb.
    split; try (subst; reflexivity).
    - exists words, case_sens, ALL, all_init. repeat split; auto. constructor.
    - exists words, case_sens, ANY, any_init. repeat split; auto. constructor.
    - subst. discriminate. }
  apply (paired_latch _ _ (paired_run calls _ _ Hpair)).
Qed.

Lemma all_stricter_than_any_witness :
  _terminated
    (run (watch [("bye", 1); ("stop", 1)] false ANY)
       [IsTerminated [msg "bye"]; IsTerminated [msg "stop"]])
  = true.
Proof.
  apply (all_stricter_than_any [("bye", 1); ("stop", 1)] false
           (watch [("bye", 1); ("stop", 1)] false ALL)
           (watch [("bye", 1); ("stop", 1)] false ANY)
           [IsTerminated [msg "bye"]; IsTerminated [msg "stop"]]).
  - apply distinct_NoDup. reflexivity.
  - reflexivity.
  - reflexivity.
  - reflexivity.
Defined.
